(** * The Page Shell ([src/components/Layout.tsx])

    [Layout] is a React function component.  It reads the router, keeps one
    boolean state hook ([domLoaded], initially [false]) and registers one
    passive effect with an empty dependency array whose body calls
    [setDomLoaded(true)].  It returns the page frame when [domLoaded] holds
    and an empty fragment otherwise.

    The component is embedded as a program of a small render monad that
    threads the hook cells of the component instance, the way React's hook
    dispatcher does: hooks are identified by their call order, a state hook
    carries its queue of pending updates, an effect hook remembers the
    dependency array of the previous render.  The lifecycle (mount, flush of
    the passive effects, re-render, unmount) is a step function on the
    instance; a store of instances keyed by an identifier models several
    independent shells.  The work loop of the runtime drives these steps:
    it flushes the effects and makes, by itself, the render pass that a
    queued update calls for.  The page around the shells holds what an
    effect can leave outside its instance: the timers it sets and the
    calls it makes.

    One render pass at a time is modelled: every render is committed, and
    the passive effects of a commit are flushed before the next render pass
    starts. *)

From Stdlib Require Import Sorted.
From stdpp Require Import base option list strings gmap fin_maps.

Set Default Proof Using "Type".

(** ** Element trees *)

Module Jsx.

(** What an element is an element of: the fragment [<>...</>], a host tag
    such as [div], or a component referred to by name. *)
Inductive ElementType :=
| Fragment
| Host (tag : string)
| Component (name : string).

(** An element with its [className] and its child slots.  A child slot of
    a JSX expression holds one element, an array of elements or
    [undefined]: the values of [JSX.Element | JSX.Element[]] when
    optional. *)
Inductive Element :=
| El (type : ElementType) (className : option string) (slots : list Child)
with Child :=
| ChildElement (e : Element)
| ChildArray (es : list Element)
| ChildUndefined.

Definition type_of (e : Element) : ElementType :=
  match e with El t _ _ => t end.

Definition className_of (e : Element) : option string :=
  match e with El _ c _ => c end.

Definition slots_of (e : Element) : list Child :=
  match e with El _ _ cs => cs end.

(** The elements a child slot contributes, in order: an array is
    flattened, [undefined] contributes nothing. *)
Definition childElements (c : Child) : list Element :=
  match c with
  | ChildElement e => [e]
  | ChildArray es => es
  | ChildUndefined => []
  end.

(** The sequence of child elements of an element, in document order. *)
Definition childrenOf (e : Element) : list Element :=
  flat_map childElements (slots_of e).

(** Every element strictly below [e], in document order. *)
Fixpoint descendants (e : Element) : list Element :=
  match e with
  | El _ _ cs =>
      flat_map
        (fun c =>
           match c with
           | ChildElement x => x :: descendants x
           | ChildArray xs => flat_map (fun x => x :: descendants x) xs
           | ChildUndefined => []
           end) cs
  end.

(** What reaches the page: a fragment is transparent, it stands for the
    visible nodes of its children; any other element is one visible
    node. *)
Fixpoint visible (e : Element) : list Element :=
  match e with
  | El Fragment _ cs =>
      flat_map
        (fun c =>
           match c with
           | ChildElement x => visible x
           | ChildArray xs => flat_map visible xs
           | ChildUndefined => []
           end) cs
  | El _ _ _ => [e]
  end.

End Jsx.
Export Jsx.

(** ** Hooks and the render monad *)

Module React.

(** The router object that [useRouter] hands out. *)
Record Router := mkRouter {
  route : string;
  pathname : string;
  asPath : string
}.

(** What the body of an effect callback can do: call the setter of the
    state hook allocated at position [hook] with [value], at once
    ([Dispatch]) or from a timer or a promise that the body sets up
    ([Later]); or call something outside the component, such as [fetch],
    [localStorage.setItem] or [router.push] ([External]). *)
Inductive Action :=
| Dispatch (hook : nat) (value : bool)
| Later (hook : nat) (value : bool)
| External (api arg : string).

(** The body of an effect callback: the calls it makes, in order. *)
Definition EffectCallback := list Action.

(** A dependency array: [None] when the argument is omitted. *)
Definition Deps := option (list bool).

(** The cells of a component instance, in hook call order. *)
Inductive Hook :=
| StateHook (memoizedState : bool) (queue : list bool)
| EffectHook (deps : Deps).

Inductive RenderError :=
| HookMismatch
| RenderedMoreHooks
| RenderedFewerHooks.

Inductive Result (A : Type) :=
| Ok (a : A)
| Err (e : RenderError).
Arguments Ok {A} a.
Arguments Err {A} e.

(** The state of one render pass of one instance. *)
Record RenderCtx := mkCtx {
  isMount : bool;
  wipHooks : list Hook;
  cursor : nat;
  scheduled : list EffectCallback;
  ctxRouter : Router
}.

Definition Render (A : Type) : Type := RenderCtx -> Result (A * RenderCtx).

#[export] Instance render_ret : MRet Render :=
  fun A a c => Ok (a, c).

#[export] Instance render_bind : MBind Render :=
  fun A B k m c =>
    match m c with
    | Ok (a, c') => k a c'
    | Err e => Err e
    end.

(** [useRouter()]: reads the router from the context; allocates no cell. *)
Definition useRouter : Render Router :=
  fun c => Ok (ctxRouter c, c).

(** The state after the pending updates are applied: each update replaces
    the value. *)
Definition applyQueue (s : bool) (q : list bool) : bool :=
  foldl (fun _ v => v) s q.

(** [useState(init)]: on the mount pass allocates a state cell holding
    [init]; on an update pass reads the cell at the cursor, applying its
    pending updates.  Returns the value and the setter bound to the cell. *)
Definition useState (init : bool) : Render (bool * (bool -> Action)) :=
  fun c =>
    let k := cursor c in
    if isMount c then
      Ok ((init, Dispatch k),
          mkCtx true (wipHooks c ++ [StateHook init []]) (S k)
                (scheduled c) (ctxRouter c))
    else
      match wipHooks c !! k with
      | Some (StateHook s q) =>
          let s' := applyQueue s q in
          Ok ((s', Dispatch k),
              mkCtx false (<[k := StateHook s' []]> (wipHooks c)) (S k)
                    (scheduled c) (ctxRouter c))
      | Some (EffectHook _) => Err HookMismatch
      | None => Err RenderedMoreHooks
      end.

(** Two dependency arrays are equal when both are given and hold the same
    values position by position, as far as the shorter of the two goes; an
    omitted array never equals anything. *)
Definition depsEqual (prev next : Deps) : bool :=
  match prev, next with
  | Some a, Some b => forallb (fun xy => Bool.eqb xy.1 xy.2) (zip a b)
  | _, _ => false
  end.

(** [useEffect(callback, deps)]: on the mount pass allocates an effect cell
    and schedules the callback; on an update pass stores the dependencies
    of this pass and schedules the callback only when they changed. *)
Definition useEffect (callback : EffectCallback) (deps : Deps) : Render unit :=
  fun c =>
    let k := cursor c in
    if isMount c then
      Ok (tt,
          mkCtx true (wipHooks c ++ [EffectHook deps]) (S k)
                (scheduled c ++ [callback]) (ctxRouter c))
    else
      match wipHooks c !! k with
      | Some (EffectHook prev) =>
          if depsEqual prev deps then
            Ok (tt,
                mkCtx false (<[k := EffectHook deps]> (wipHooks c)) (S k)
                      (scheduled c) (ctxRouter c))
          else
            Ok (tt,
                mkCtx false (<[k := EffectHook deps]> (wipHooks c)) (S k)
                      (scheduled c ++ [callback]) (ctxRouter c))
      | Some (StateHook _ _) => Err HookMismatch
      | None => Err RenderedMoreHooks
      end.

(** What a completed render pass hands to the commit: the element, the
    cells and the effects to run. *)
Record Rendered := mkRendered {
  element : Element;
  newHooks : list Hook;
  effects : list EffectCallback
}.

(** One render pass of a component over the cells [hs]: a mount pass when
    [mounting], an update pass otherwise.  An update pass that leaves cells
    unvisited fails. *)
Definition renderWithHooks (mounting : bool) (hs : list Hook) (r : Router)
    (component : Render Element) : Result Rendered :=
  match component (mkCtx mounting hs 0 [] r) with
  | Ok (el, c) =>
      if bool_decide (cursor c < length (wipHooks c)) then Err RenderedFewerHooks
      else Ok (mkRendered el (wipHooks c) (scheduled c))
  | Err e => Err e
  end.

End React.
Export React.

(** ** The component *)

Module PageShell.

(** [type Props = { children?: JSX.Element | JSX.Element[] }] *)
Record Props := mkProps {
  children : Child
}.

(** The two collaborators [./Navigation] and [./Footer] are referred to by
    name; the shell passes them nothing. *)
Definition Navigation : ElementType := Component "Navigation".
Definition Footer : ElementType := Component "Footer".

Definition bannerClass : string :=
  "absolute w-full h-2 bg-gradient-to-r from-amber-500 to-pink-500".

Definition containerClass : string :=
  "flex flex-col flex-1 mx-auto w-full max-w-[1400px] min-h-screen".

Definition banner : Element :=
  El (Host "div") (Some bannerClass) [].

Definition container (props : Props) : Element :=
  El (Host "div") (Some containerClass)
     [ ChildElement (El Navigation None []);
       children props;
       ChildElement (El Footer None []) ].

Definition Layout (props : Props) : Render Element :=
  router ← useRouter;
  '(domLoaded, setDomLoaded) ← useState false;
  _ ← useEffect [setDomLoaded true] (Some []);
  if (domLoaded : bool) then
    mret (El Fragment None
             [ ChildElement banner;
               ChildElement (container props) ])
  else
    mret (El Fragment None []).

End PageShell.
Export PageShell.

(** ** The lifecycle of an instance *)

Module Lifecycle.

(** A mounted instance: its cells and the passive effects of the last
    commit that have not run yet. *)
Record Instance := mkInstance {
  hooks : list Hook;
  pendingEffects : list EffectCallback
}.

(** What an action does to the cells.  A setter call: when nothing is
    pending and the value is the current one the call is dropped;
    otherwise the update is queued on the cell and a re-render is scheduled
    (the [true] of the result).  A deferred setter call and a call outside
    the component leave the cells as they are. *)
Definition dispatchSetState (hs : list Hook) (a : Action) : list Hook * bool :=
  match a with
  | Dispatch k v =>
      match hs !! k with
      | Some (StateHook s q) =>
          if bool_decide (q = [] ∧ v = s) then (hs, false)
          else (<[k := StateHook s (q ++ [v])]> hs, true)
      | _ => (hs, false)
      end
  | Later _ _ => (hs, false)
  | External _ _ => (hs, false)
  end.

(** Runs the calls of callbacks in order; counts the re-renders they
    schedule. *)
Fixpoint runActions (hs : list Hook) (acts : list Action) : list Hook * nat :=
  match acts with
  | [] => (hs, 0)
  | a :: acts' =>
      let '(hs1, b) := dispatchSetState hs a in
      let '(hs2, n) := runActions hs1 acts' in
      (hs2, (if b then 1 else 0) + n)
  end.

(** What one step of the lifecycle did: the result of the render pass when
    there was one, the setter calls made by the effects that ran, and how
    many re-renders these scheduled. *)
Record StepLog := mkLog {
  rendered : option (Result Element);
  performed : list Action;
  rerenders : nat
}.

Definition idle : StepLog := mkLog None [] 0.

(** Runs the pending passive effects of an instance. *)
Definition flushPassiveEffects (inst : Instance) : Instance * list Action * nat :=
  let acts := concat (pendingEffects inst) in
  let '(hs, n) := runActions (hooks inst) acts in
  (mkInstance hs [], acts, n).

(** Construction of an instance: the mount pass over no cells.  A mount
    pass that fails leaves no instance. *)
Definition mount (r : Router) (p : Props) : option Instance * StepLog :=
  match renderWithHooks true [] r (Layout p) with
  | Ok rd =>
      (Some (mkInstance (newHooks rd) (effects rd)),
       mkLog (Some (Ok (element rd))) [] 0)
  | Err e => (None, mkLog (Some (Err e)) [] 0)
  end.

(** What happens to an instance after its construction: the runtime
    flushes the passive effects, renders it again (with the router and the
    props of that moment), or unmounts it. *)
Inductive Event :=
| EvFlush
| EvRender (r : Router) (p : Props)
| EvUnmount.

(** One step.  [None] is the unmounted shell, on which every event does
    nothing.  A render pass and an unmount first flush what is pending.  A
    render pass that fails tears the instance down. *)
Definition step (s : option Instance) (ev : Event) : option Instance * StepLog :=
  match s with
  | None => (None, idle)
  | Some inst =>
      let '(inst', acts, n) := flushPassiveEffects inst in
      match ev with
      | EvFlush => (Some inst', mkLog None acts n)
      | EvRender r p =>
          match renderWithHooks false (hooks inst') r (Layout p) with
          | Ok rd =>
              (Some (mkInstance (newHooks rd) (effects rd)),
               mkLog (Some (Ok (element rd))) acts n)
          | Err e => (None, mkLog (Some (Err e)) acts n)
          end
      | EvUnmount => (None, mkLog None acts n)
      end
  end.

(** The steps of a sequence of events: after each event, the state reached
    and what the step did. *)
Fixpoint trace (s : option Instance) (evs : list Event)
  : list (option Instance * StepLog) :=
  match evs with
  | [] => []
  | ev :: evs' => let r := step s ev in r :: trace r.1 evs'
  end.

Definition run (s : option Instance) (evs : list Event) : option Instance :=
  foldl (fun s ev => (step s ev).1) s evs.

(** MountState: the value of the [domLoaded] cell, the first cell of the
    instance; [None] when there is no instance. *)
Definition domLoadedOf (s : option Instance) : option bool :=
  match s with
  | Some inst =>
      match hooks inst !! 0 with
      | Some (StateHook b _) => Some b
      | _ => None
      end
  | None => None
  end.

(** The values of MountState after each event, from a given state. *)
Definition flagsFrom (s : option Instance) (evs : list Event) : list (option bool) :=
  map (fun st => domLoadedOf st.1) (trace s evs).

(** The values of MountState along a lifecycle: after the construction and
    after each event. *)
Definition flags (r : Router) (p : Props) (evs : list Event) : list (option bool) :=
  domLoadedOf (mount r p).1 :: flagsFrom (mount r p).1 evs.

(** How often a list of flag values goes from [false] to [true]. *)
Fixpoint transitions (fs : list (option bool)) : nat :=
  match fs with
  | Some false :: ((Some true :: _) as fs') => S (transitions fs')
  | _ :: fs' => transitions fs'
  | [] => 0
  end.

(** No event of the list unmounts. *)
Definition alive (evs : list Event) : bool :=
  forallb (fun ev => match ev with EvUnmount => false | _ => true end) evs.

(** The first event that is not a flush is a render pass: the re-render
    takes place before the instance is unmounted. *)
Fixpoint rerenderHappens (evs : list Event) : bool :=
  match evs with
  | [] => false
  | EvFlush :: evs' => rerenderHappens evs'
  | EvRender _ _ :: _ => true
  | EvUnmount :: _ => false
  end.

End Lifecycle.
Export Lifecycle.

(** ** Several shells *)

Module Shells.

(** The instances that exist, by identifier. *)
Definition put (i : nat) (s : option Instance) (sigma : gmap nat Instance)
  : gmap nat Instance :=
  match s with
  | Some inst => <[i := inst]> sigma
  | None => delete i sigma
  end.

(** Constructs the shell [i] when it does not exist. *)
Definition mountAt (sigma : gmap nat Instance) (i : nat) (r : Router) (p : Props)
  : gmap nat Instance * StepLog :=
  match sigma !! i with
  | Some _ => (sigma, idle)
  | None => let '(s, log) := mount r p in (put i s sigma, log)
  end.

(** Delivers an event to the shell [i]. *)
Definition stepAt (sigma : gmap nat Instance) (i : nat) (ev : Event)
  : gmap nat Instance * StepLog :=
  let '(s, log) := step (sigma !! i) ev in (put i s sigma, log).

End Shells.
Export Shells.

(** ** The work loop

    The steps above are carried out by the runtime.  After a commit its
    work loop flushes the passive effects and, when these queued a state
    update, renders the instance again, by itself, with the props and the
    router of the last pass.  The parent asks for a render pass with new
    props, or for the unmount. *)

Module WorkLoop.

(** The state updates queued on the cells of an instance. *)
Definition queued (s : option Instance) : nat :=
  match s with
  | Some inst =>
      sum_list
        (map (fun h => match h with
                       | StateHook _ q => length q
                       | EffectHook _ => 0
                       end) (hooks inst))
  | None => 0
  end.

(** The state updates that the step of [ev] applies: those queued when its
    render pass starts, the pending effects having run; none when the step
    has no render pass. *)
Definition applied (s : option Instance) (ev : Event) : nat :=
  match ev with
  | EvRender _ _ => queued (step s EvFlush).1
  | _ => 0
  end.

Fixpoint appliedAlong (s : option Instance) (evs : list Event) : nat :=
  match evs with
  | [] => 0
  | ev :: evs' => applied s ev + appliedAlong (step s ev).1 evs'
  end.

(** A shell as the work loop holds it: the instance, and the props and the
    router of its last render pass. *)
Record Fiber := mkFiber {
  current : option Instance;
  memoizedProps : Props;
  memoizedRouter : Router
}.

Inductive Command :=
| Tick
| Update (r : Router) (p : Props)
| Unmount.

(** Whether the work loop, having flushed the effects, has a render pass
    to make by itself. *)
Definition rerenderDue (f : Fiber) : bool :=
  0 <? queued (step (current f) EvFlush).1.

(** The steps by which the work loop carries out a command. *)
Definition eventsOf (f : Fiber) (c : Command) : list Event :=
  match c with
  | Tick =>
      if rerenderDue f then
        [EvFlush; EvRender (memoizedRouter f) (memoizedProps f)]
      else [EvFlush]
  | Update r p => [EvRender r p]
  | Unmount => [EvUnmount]
  end.

Definition perform (f : Fiber) (c : Command) : Fiber :=
  mkFiber (run (current f) (eventsOf f c))
          (match c with Update _ p => p | _ => memoizedProps f end)
          (match c with Update r _ => r | _ => memoizedRouter f end).

(** The steps of a sequence of commands. *)
Fixpoint schedule (f : Fiber) (cs : list Command) : list Event :=
  match cs with
  | [] => []
  | c :: cs' => eventsOf f c ++ schedule (perform f c) cs'
  end.

(** The render passes that the work loop makes by itself along a sequence
    of commands. *)
Fixpoint selfRenders (f : Fiber) (cs : list Command) : nat :=
  match cs with
  | [] => 0
  | c :: cs' =>
      (match c with
       | Tick => if rerenderDue f then 1 else 0
       | _ => 0
       end) + selfRenders (perform f c) cs'
  end.

(** The shell after its construction. *)
Definition start (r : Router) (p : Props) : Fiber :=
  mkFiber (mount r p).1 p r.

Definition staysMounted (c : Command) : bool :=
  match c with
  | Unmount => false
  | _ => true
  end.

End WorkLoop.
Export WorkLoop.

(** ** The page around the shells

    What is outside the instances: the timers that effect callbacks have
    set, each a setter call waiting to be made on a cell of a shell, and
    the calls made to the outside. *)

Module Page.

Record World := mkWorld {
  shells : gmap nat Instance;
  timers : list (nat * nat * bool);
  calls : list (string * string)
}.

Definition emptyWorld : World := mkWorld ∅ [] [].

(** What the actions performed by a step of the shell [i] leave outside
    it: a deferred setter call becomes a timer, a call to the outside is
    made; a setter call has acted on the cells already. *)
Definition absorb (i : nat) (acts : list Action) (w : World) : World :=
  foldl (fun w a =>
           match a with
           | Dispatch _ _ => w
           | Later k v => mkWorld (shells w) (timers w ++ [(i, k, v)]) (calls w)
           | External api arg =>
               mkWorld (shells w) (timers w) (calls w ++ [(api, arg)])
           end) w acts.

Inductive WorldEvent :=
| WMount (i : nat) (r : Router) (p : Props)
| WStep (i : nat) (ev : Event)
| WFire.

(** One event of the page.  A timer that fires makes its setter call on
    the shell it belongs to; on a shell that is no longer there the call
    does nothing. *)
Definition deliver (w : World) (e : WorldEvent) : World * StepLog :=
  match e with
  | WMount i r p =>
      let '(sigma, log) := mountAt (shells w) i r p in
      (absorb i (performed log) (mkWorld sigma (timers w) (calls w)), log)
  | WStep i ev =>
      let '(sigma, log) := stepAt (shells w) i ev in
      (absorb i (performed log) (mkWorld sigma (timers w) (calls w)), log)
  | WFire =>
      match timers w with
      | [] => (w, idle)
      | (j, k, v) :: ts =>
          match shells w !! j with
          | Some inst =>
              let '(hs, b) := dispatchSetState (hooks inst) (Dispatch k v) in
              (mkWorld (<[j := mkInstance hs (pendingEffects inst)]> (shells w))
                       ts (calls w),
               mkLog None [Dispatch k v] (if b then 1 else 0))
          | None => (mkWorld (shells w) ts (calls w), idle)
          end
      end
  end.

Definition deliverAll (w : World) (es : list WorldEvent) : World :=
  foldl (fun w e => (deliver w e).1) w es.

(** The event is addressed to the shell [i]. *)
Definition targets (i : nat) (e : WorldEvent) : bool :=
  match e with
  | WMount j _ _ => bool_decide (j = i)
  | WStep j _ => bool_decide (j = i)
  | WFire => false
  end.

(** The event constructs the shell [i]. *)
Definition mounts (i : nat) (e : WorldEvent) : bool :=
  match e with
  | WMount j _ _ => bool_decide (j = i)
  | _ => false
  end.

(** A page with any history [es0], on which the shell [i] is constructed
    and, before it is ever rendered again, only flushed [n] times, while
    the events [mid] go to the other shells. *)
Definition beforeReady (es0 : list WorldEvent) (i : nat) (r : Router) (p : Props)
    (mid : list WorldEvent) (n : nat) : World :=
  deliverAll
    (deliverAll (deliver (deliverAll emptyWorld es0) (WMount i r p)).1 mid)
    (replicate n (WStep i EvFlush)).

(** The same page once the shell [i] is unmounted. *)
Definition unmountedEarly (es0 : list WorldEvent) (i : nat) (r : Router)
    (p : Props) (mid : list WorldEvent) (n : nat) : World :=
  (deliver (beforeReady es0 i r p mid n) (WStep i EvUnmount)).1.

End Page.
Export Page.

(** ** The three mounted phases

    The instances that a lifecycle of the shell goes through, named after
    the states of the shell: constructed with the effect still pending,
    effect run with the re-render scheduled, and ready. *)

Module Phases.

Definition emptyFragment : Element := El Fragment None [].

Definition frame (p : Props) : Element :=
  El Fragment None [ChildElement banner; ChildElement (container p)].

Definition shellCells (b : bool) (q : list bool) : list Hook :=
  [StateHook b q; EffectHook (Some [])].

Definition notReady : Instance :=
  mkInstance (shellCells false []) [[Dispatch 0 true]].

Definition readying : Instance :=
  mkInstance (shellCells false [true]) [].

Definition ready : Instance :=
  mkInstance (shellCells true []) [].

Inductive Phase : option Instance -> Prop :=
| PhaseUnmounted : Phase None
| PhaseNotReady : Phase (Some notReady)
| PhaseReadying : Phase (Some readying)
| PhaseReady : Phase (Some ready).

Inductive Mounted : option Instance -> Prop :=
| MountedNotReady : Mounted (Some notReady)
| MountedReadying : Mounted (Some readying)
| MountedReady : Mounted (Some ready).

(** The states in which no effect is pending. *)
Inductive Settled : option Instance -> Prop :=
| SettledUnmounted : Settled None
| SettledReadying : Settled (Some readying)
| SettledReady : Settled (Some ready).

(** A step that calls no setter and schedules nothing. *)
Definition quiet (st : option Instance * StepLog) : Prop :=
  performed st.2 = [] /\ rerenders st.2 = 0.

(** [x] lies inside the bounded-width container of the tree [out]: some
    element of [out] carrying the class of the container has [x] below
    it. *)
Definition insideContainer (x out : Element) : Prop :=
  exists c,
    (c = out \/ In c (descendants out))
    /\ className_of c = Some containerClass
    /\ In x (descendants c).

(** Whether there is an instance. *)
Definition mounted (s : option Instance) : bool :=
  match s with
  | Some _ => true
  | None => false
  end.

(** What a step renders when the instance is in one of its phases. *)
Definition expectedOutput (s : option Instance) (ev : Event)
  : option (Result Element) :=
  match s, ev with
  | Some _, EvRender _ p => Some (Ok (frame p))
  | _, _ => None
  end.

(** A page on which there are only shells in one of their phases, no timer
    is set and no call to the outside has been made. *)
Definition Clean (w : World) : Prop :=
  timers w = [] /\ calls w = [] /\ forall i, Phase (shells w !! i).

End Phases.
Export Phases.

(** ** Sample inputs *)

Module Samples.

Definition home : Router := mkRouter "/" "/" "/".

Definition article : Router :=
  mkRouter "/article/[slug]" "/article/[slug]" "/article/io_pipes_and_files".

Definition marker (name : string) : Element := El (Component name) None [].

Definition noChildren : Props := mkProps ChildUndefined.

Definition oneChild : Props := mkProps (ChildElement (marker "Post")).

Definition threeChildren : Props :=
  mkProps (ChildArray [marker "A"; marker "B"; marker "C"]).

(** A page with the shell 0 just constructed, and at 1 an instance that is
    not a shell's: its pending effect defers a setter call and calls the
    outside. *)
Definition busyPage : World :=
  mkWorld
    {[ 0 := mkInstance [StateHook false []; EffectHook (Some [])]
                       [[Dispatch 0 true]];
       1 := mkInstance [StateHook false []; EffectHook (Some [])]
                       [[Later 0 true; External "fetch" "/api/visits"]] ]}
    [(1, 0, true)]
    [("localStorage.setItem", "seen")].

End Samples.
Export Samples.

(** * The table of contents of an article

    The article on tables of contents carries the JavaScript that builds
    one: [dynamicMdMatcher], [retrieveParsedData], [mdRecursiveSubRoutine],
    [generateNestedHtml] and [recursiveListGenerator].

    A JavaScript string is the list of its UTF-16 code units; a number that
    counts is an integer.  The functions that call [shift] on their
    argument return, beside their result, the array as they leave it.  The
    one loop that need not end, [while (closeCount--)], runs on fuel. *)

Module Toc.

Abbreviation JsString := (list N).

(** A literal of the source, all of whose characters are ASCII. *)
Definition js (s : string) : JsString :=
  map Ascii.N_of_ascii (String.list_ascii_of_string s).

(** [{ depthCount, type, content }] *)
Record Heading := mkHeading {
  depthCount : Z;
  type : JsString;
  content : JsString
}.

(** ** The regular expression of [dynamicMdMatcher]

    From the start of the input: one to four [#], captured; white space,
    once or more; any characters, captured; the end of the input. *)

(** [#] *)
Definition isHash (c : N) : bool := (c =? 35)%N.

(** The line terminators: LF, CR, LS, PS. *)
Definition isLineTerminator (c : N) : bool :=
  ((c =? 10) || (c =? 13) || (c =? 8232) || (c =? 8233))%N.

(** [\s]: the white space characters and the line terminators. *)
Definition isWhiteSpace (c : N) : bool :=
  ((c =? 9) || (c =? 11) || (c =? 12) || (c =? 32) || (c =? 160)
   || (c =? 5760) || ((8192 <=? c) && (c <=? 8202)) || (c =? 8239)
   || (c =? 8287) || (c =? 12288) || (c =? 65279))%N
  || isLineTerminator c.

(** [.] without the [s] flag: any code unit but a line terminator. *)
Definition isDot (c : N) : bool := negb (isLineTerminator c).

(** One greedy quantified character class, captured or not. *)
Record Atom := mkAtom {
  cls : N -> bool;
  atLeast : nat;
  atMost : option nat;
  capture : bool
}.

(** The length of the longest prefix of [s] in the class. *)
Fixpoint prefixLen (p : N -> bool) (s : JsString) : nat :=
  match s with
  | c :: s' => if p c then S (prefixLen p s') else 0
  | [] => 0
  end.

(** The most repetitions the atom can take at the front of [s]. *)
Definition greedy (a : Atom) (s : JsString) : nat :=
  match atMost a with
  | Some m => Nat.min m (prefixLen (cls a) s)
  | None => prefixLen (cls a) s
  end.

(** Tries [k] repetitions of the atom, then the rest of the pattern by
    [next]; on failure gives one repetition back and tries again. *)
Fixpoint backtrack (a : Atom) (next : JsString -> option (list JsString))
    (s : JsString) (k : nat) : option (list JsString) :=
  let attempt := if atLeast a <=? k then next (drop k s) else None in
  match attempt with
  | Some caps => Some (if capture a then take k s :: caps else caps)
  | None =>
      match k with
      | 0 => None
      | S k' => backtrack a next s k'
      end
  end.

(** Matches a sequence of atoms against the whole of [s], from its start
    to its end; yields the captured groups. *)
Fixpoint matchAtoms (atoms : list Atom) (s : JsString) : option (list JsString) :=
  match atoms with
  | [] => match s with [] => Some [] | _ :: _ => None end
  | a :: atoms' => backtrack a (matchAtoms atoms') s (greedy a s)
  end.

Definition dynamicMdMatcher : list Atom :=
  [ mkAtom isHash 1 (Some 4) true;
    mkAtom isWhiteSpace 1 None false;
    mkAtom isDot 0 None true ].

(** [dynamicMdMatcher.exec(line)]: the two groups of a match. *)
Definition exec (line : JsString) : option (JsString * JsString) :=
  match matchAtoms dynamicMdMatcher line with
  | Some [g1; g2] => Some (g1, g2)
  | _ => None
  end.

(** ** [retrieveParsedData] *)

(** [s.split(/\r?\n/)], with [cur] the piece being read. *)
Fixpoint splitFrom (cur : JsString) (s : JsString) : list JsString :=
  match s with
  | [] => [cur]
  | c :: rest =>
      if (c =? 10)%N then cur :: splitFrom [] rest
      else
        match rest with
        | c' :: rest' =>
            if ((c =? 13) && (c' =? 10))%N then cur :: splitFrom [] rest'
            else splitFrom (cur ++ [c]) rest
        | [] => splitFrom (cur ++ [c]) rest
        end
  end.

Definition split (s : JsString) : list JsString := splitFrom [] s.

(** What the second [map] of [retrieveParsedData] makes of a line: the
    record of a heading, or [None] for the empty string that the last
    [filter] discards. *)
Definition parseLine (line : JsString) : option Heading :=
  match exec line with
  | Some (g1, g2) => Some (mkHeading (Z.of_nat (length g1)) g1 g2)
  | None => None
  end.

Definition retrieveParsedData (postContent : JsString) : list Heading :=
  let allLines :=
    filter (fun line => 0 < length line) (map (fun line => line) (split postContent)) in
  let matchedHeadings := omap parseLine allLines in
  matchedHeadings.

(** ** [mdRecursiveSubRoutine] *)

(** Called on arrays, as it is: an array, empty or not, passes the test
    [if (existingGroup)] of the base case. *)
Fixpoint mdRecursiveSubRoutine (data : list Heading) (existingGroup : list Heading)
    (solution : list (list Heading)) : list (list Heading) * list Heading :=
  match data with
  | [] => (solution ++ [existingGroup], [])
  | h :: data' =>
      match last existingGroup with
      | None => mdRecursiveSubRoutine data' [h] solution
      | Some l =>
          if (depthCount h <? depthCount l)%Z then
            mdRecursiveSubRoutine data' [h] (solution ++ [existingGroup])
          else
            mdRecursiveSubRoutine data' (existingGroup ++ [h]) solution
      end
  end.

(** ** [generateNestedHtml] and [recursiveListGenerator] *)

(** The exception that the code raises by itself: reading a property of
    [undefined]. *)
Inductive JsError :=
| TypeError.

(** How a call ends: with a value, with the exception that the code
    raises by itself, or not within the fuel: the loop is still running.
    An engine puts an end to such a run when the string that the loop
    builds outgrows what the engine allows, with an error of its own at a
    length that depends on the engine; [OutOfFuel] for every fuel says
    that the call does not return. *)
Inductive Outcome (A : Type) :=
| Returns (a : A)
| Throws (e : JsError)
| OutOfFuel.
Arguments Returns {A} a.
Arguments Throws {A} e.
Arguments OutOfFuel {A}.

(** [<li>${content}</li>] *)
Definition li (h : Heading) : JsString :=
  js "<li>" ++ content h ++ js "</li>".

(** [for (let i = 0; i < calculatedRecursionDepth; i++)
      { generatedCode += "<ul>"; tempCloseCount++ }],
    for the [n] rounds it makes. *)
Fixpoint forOpen (n : nat) (generatedCode : JsString) (tempCloseCount : Z)
  : JsString * Z :=
  match n with
  | 0 => (generatedCode, tempCloseCount)
  | S n' => forOpen n' (generatedCode ++ js "<ul>") (tempCloseCount + 1)%Z
  end.

(** [while (closeCount--) generatedCode += "</ul>"]: the test reads the
    count and then decrements it, zero ends the loop.  [None] when the
    fuel does not reach the end. *)
Fixpoint whileClose (fuel : nat) (closeCount : Z) (generatedCode : JsString)
  : option (Z * JsString) :=
  match fuel with
  | 0 => None
  | S fuel' =>
      if (closeCount =? 0)%Z then Some ((closeCount - 1)%Z, generatedCode)
      else whileClose fuel' (closeCount - 1)%Z (generatedCode ++ js "</ul>")
  end.

Fixpoint recursiveListGenerator (fuel : nat) (layer : list Heading) (prevDepth : Z)
    (generatedCode : JsString) (closeCount : Z)
  : Outcome (JsString * list Heading) :=
  match layer with
  | [] => Returns (generatedCode ++ js "</ul>", [])
  | h :: layer' =>
      let currentDepth := depthCount h in
      if (depthCount h =? prevDepth)%Z then
        recursiveListGenerator fuel layer' currentDepth (generatedCode ++ li h)
                               closeCount
      else if (depthCount h >? prevDepth)%Z then
        let calculatedRecursionDepth := (depthCount h - prevDepth)%Z in
        let '(code, tempCloseCount) :=
          forOpen (Z.to_nat calculatedRecursionDepth) generatedCode 0 in
        recursiveListGenerator fuel layer' currentDepth (code ++ li h)
                               tempCloseCount
      else
        match whileClose fuel closeCount generatedCode with
        | Some (closeCount', code) =>
            recursiveListGenerator fuel layer' currentDepth (code ++ li h)
                                   closeCount'
        | None => OutOfFuel
        end
  end.

(** The line feed and the two spaces that the template literal of the
    driver has around the generated code. *)
Definition indent : JsString := 10%N :: js "  ".

(** [depthData[0].depthCount] throws on the empty array. *)
Definition generateNestedHtml (fuel : nat) (depthData : list Heading)
  : Outcome (JsString * list Heading) :=
  match depthData with
  | [] => Throws TypeError
  | h :: _ =>
      let closeCount := 0%Z in
      match recursiveListGenerator fuel depthData (depthCount h) [] closeCount with
      | Returns (code, depthData') =>
          Returns (js "<ul>" ++ indent ++ code ++ indent ++ js "</ul>", depthData')
      | Throws e => Throws e
      | OutOfFuel => OutOfFuel
      end
  end.

End Toc.
Export Toc.

(** ** Notions used to state what the table of contents code does *)

Module TocNotions.

(** [a] is not deeper than [b]. *)
Definition notDeeper (a b : Heading) : Prop :=
  (depthCount a <= depthCount b)%Z.

(** The group [g2] starts above the end of [g1]: both have a heading, and
    the first of [g2] is less deep than the last of [g1]. *)
Definition resets (g1 g2 : list Heading) : Prop :=
  exists l f, last g1 = Some l /\ head g2 = Some f
              /\ (depthCount f < depthCount l)%Z.

(** Every group starts above the end of the group before it. *)
Fixpoint Boundaries (gs : list (list Heading)) : Prop :=
  match gs with
  | g1 :: ((g2 :: _) as gs') => resets g1 g2 /\ Boundaries gs'
  | _ => True
  end.

(** The pieces the generated code is made of. *)
Inductive Token :=
| Open
| Close
| Item (c : JsString).

Definition renderToken (t : Token) : JsString :=
  match t with
  | Open => js "<ul>"
  | Close => js "</ul>"
  | Item c => js "<li>" ++ c ++ js "</li>"
  end.

Definition renderTokens (ts : list Token) : JsString :=
  concat (map renderToken ts).

Definition items (ts : list Token) : list JsString :=
  omap (fun t => match t with Item c => Some c | _ => None end) ts.

(** Reading the depths from [prev] on: a heading less deep than the one
    before it comes while [descended] holds, that is, after an earlier such
    heading with no deeper heading since. *)
Fixpoint descendsTwice (descended : bool) (prev : Z) (layer : list Heading) : bool :=
  match layer with
  | [] => false
  | h :: layer' =>
      if (depthCount h =? prev)%Z then descendsTwice descended (depthCount h) layer'
      else if (depthCount h >? prev)%Z then descendsTwice false (depthCount h) layer'
      else descended || descendsTwice true (depthCount h) layer'
  end.

Fixpoint countOpen (ts : list Token) : nat :=
  match ts with
  | Open :: ts' => S (countOpen ts')
  | _ :: ts' => countOpen ts'
  | [] => 0
  end.

Fixpoint countClose (ts : list Token) : nat :=
  match ts with
  | Close :: ts' => S (countClose ts')
  | _ :: ts' => countClose ts'
  | [] => 0
  end.

(** The depth of the last heading of [layer], [prev] when there is none. *)
Definition lastDepth (prev : Z) (layer : list Heading) : Z :=
  match last layer with
  | Some h => depthCount h
  | None => prev
  end.

(** The sample [depthData] of the article. *)
Definition depthData : list Heading :=
  [ mkHeading 1 (js "#") (js "This is a heading");
    mkHeading 2 (js "##") (js "This is a nested thing");
    mkHeading 2 (js "##") (js "This would cause a reset");
    mkHeading 3 (js "###") (js "This is even deeper");
    mkHeading 1 (js "#") (js "This is even deeper");
    mkHeading 2 (js "##") (js "Would this cause a reset?") ].

(** The line of a heading: its [#]s, a space, its text. *)
Definition headingLine (h : Heading) : JsString :=
  type h ++ [32%N] ++ content h.

(** Lines joined by line feeds. *)
Fixpoint joinLines (ls : list JsString) : JsString :=
  match ls with
  | [] => []
  | [l] => l
  | l :: ls' => l ++ 10%N :: joinLines ls'
  end.

(** Lines joined by carriage return and line feed. *)
Fixpoint joinCrLf (ls : list JsString) : JsString :=
  match ls with
  | [] => []
  | [l] => l
  | l :: ls' => l ++ 13%N :: 10%N :: joinCrLf ls'
  end.

(** The line holds neither a line feed nor a carriage return. *)
Definition noBreak (l : JsString) : Prop :=
  forallb (fun c => negb ((c =? 10) || (c =? 13))%N) l = true.

(** A heading as [retrieveParsedData] yields them: one to four [#] as its
    type, their number as its depth, and a text without line terminator
    that does not start with white space. *)
Definition wellFormed (h : Heading) : Prop :=
  (exists n, 1 <= n <= 4 /\ type h = replicate n 35%N
             /\ depthCount h = Z.of_nat n)
  /\ forallb isDot (content h) = true
  /\ match content h with
     | c :: _ => isWhiteSpace c = false
     | [] => True
     end.

End TocNotions.
Export TocNotions.

(** ** Stepping through the phases *)

Section Steps.

Variables (r : Router) (p : Props).

Lemma mount_eq :
  mount r p = (Some notReady, mkLog (Some (Ok emptyFragment)) [] 0).
Proof. reflexivity. Qed.

Lemma flush_notReady :
  step (Some notReady) EvFlush = (Some readying, mkLog None [Dispatch 0 true] 1).
Proof. reflexivity. Qed.

Lemma flush_readying :
  step (Some readying) EvFlush = (Some readying, idle).
Proof. reflexivity. Qed.

Lemma flush_ready :
  step (Some ready) EvFlush = (Some ready, idle).
Proof. reflexivity. Qed.

Lemma render_notReady :
  step (Some notReady) (EvRender r p)
  = (Some ready, mkLog (Some (Ok (frame p))) [Dispatch 0 true] 1).
Proof. reflexivity. Qed.

Lemma render_readying :
  step (Some readying) (EvRender r p)
  = (Some ready, mkLog (Some (Ok (frame p))) [] 0).
Proof. reflexivity. Qed.

Lemma render_ready :
  step (Some ready) (EvRender r p)
  = (Some ready, mkLog (Some (Ok (frame p))) [] 0).
Proof. reflexivity. Qed.

Lemma unmount_notReady :
  step (Some notReady) EvUnmount = (None, mkLog None [Dispatch 0 true] 1).
Proof. reflexivity. Qed.

Lemma unmount_readying :
  step (Some readying) EvUnmount = (None, idle).
Proof. reflexivity. Qed.

Lemma unmount_ready :
  step (Some ready) EvUnmount = (None, idle).
Proof. reflexivity. Qed.

End Steps.

Lemma step_unmounted (ev : Event) : step None ev = (None, idle).
Proof. reflexivity. Qed.

Create HintDb shell discriminated.
#[export] Hint Constructors Phase Mounted Settled : shell.
Create Rewrite HintDb shell.
#[export] Hint Rewrite mount_eq flush_notReady flush_readying flush_ready
  render_notReady render_readying render_ready
  unmount_notReady unmount_readying unmount_ready step_unmounted : shell.

Lemma Mounted_Phase (s : option Instance) : Mounted s -> Phase s.
Proof. destruct 1; auto with shell. Qed.

Lemma mount_Mounted (r : Router) (p : Props) : Mounted (mount r p).1.
Proof. rewrite mount_eq. constructor. Qed.

Lemma step_Phase (s : option Instance) (ev : Event) :
  Phase s -> Phase (step s ev).1.
Proof.
  destruct 1, ev; autorewrite with shell; simpl; auto with shell.
Qed.

Lemma run_Phase (evs : list Event) (s : option Instance) :
  Phase s -> Phase (run s evs).
Proof.
  revert s. induction evs as [|ev evs IH]; intros s Hs; simpl; [done|].
  apply IH, step_Phase, Hs.
Qed.

Lemma step_Mounted (s : option Instance) (ev : Event) :
  Mounted s -> ev <> EvUnmount -> Mounted (step s ev).1.
Proof.
  destruct 1, ev; intros Hev; try done;
    autorewrite with shell; simpl; auto with shell.
Qed.

Lemma run_Mounted (evs : list Event) (s : option Instance) :
  Mounted s -> alive evs = true -> Mounted (run s evs).
Proof.
  revert s. induction evs as [|ev evs IH]; intros s Hs Ha; simpl in *; [done|].
  apply andb_prop in Ha as [Hev Ha].
  apply IH; [|done]. apply step_Mounted; [done|]. by destruct ev.
Qed.

(** The step at position [k] of a trace is the step of event [k] from the
    state the first [k] events lead to. *)
Lemma trace_lookup (evs : list Event) (s : option Instance) (k : nat) (ev : Event) :
  evs !! k = Some ev ->
  trace s evs !! k = Some (step (run s (take k evs)) ev).
Proof.
  revert s k. induction evs as [|e evs IH]; intros s k Hk; [done|].
  destruct k as [|k]; simpl in *.
  - by inversion Hk.
  - by apply IH.
Qed.

(** ** What the shell renders *)

(** C2: in every lifecycle, whatever the router and the children, the
    first render pass succeeds with the empty fragment: nothing of it
    reaches the page and it has no element below it, so neither banner nor
    navigation, content or footer. *)
Theorem first_render_is_empty (r : Router) (p : Props) :
  rendered (mount r p).2 = Some (Ok emptyFragment)
  /\ visible emptyFragment = []
  /\ descendants emptyFragment = []
  /\ domLoadedOf (mount r p).1 = Some false.
Proof. by rewrite mount_eq. Qed.

(** What the frame consists of. *)
Lemma frame_visible (p : Props) : visible (frame p) = [banner; container p].
Proof. reflexivity. Qed.

Lemma container_children (p : Props) :
  childrenOf (container p)
  = [El Navigation None []] ++ childElements (children p) ++ [El Footer None []].
Proof. reflexivity. Qed.

(** A render pass of a mounted instance yields the frame around the
    children it is given and leaves the instance ready. *)
Lemma render_Mounted (s : option Instance) (r : Router) (p : Props) :
  Mounted s ->
  (step s (EvRender r p)).1 = Some ready
  /\ rendered (step s (EvRender r p)).2 = Some (Ok (frame p)).
Proof. destruct 1; autorewrite with shell; by split. Qed.

(** C1: in a lifecycle started with any router and children, take any
    later render pass, at position [k] of the events, that happens before
    an unmount.  It succeeds; what reaches the page is the banner and one
    container, and the children of the container are the navigation, then
    the elements supplied to this pass in their order, then the footer. *)
Theorem render_after_first (r0 : Router) (p0 : Props) (evs : list Event)
    (k : nat) (r : Router) (p : Props) :
  evs !! k = Some (EvRender r p) ->
  alive (take k evs) = true ->
  exists st out c,
    trace (mount r0 p0).1 evs !! k = Some st
    /\ rendered st.2 = Some (Ok out)
    /\ visible out = [banner; c]
    /\ childrenOf c
       = [El Navigation None []] ++ childElements (children p) ++ [El Footer None []].
Proof.
  intros Hk Ha.
  pose proof (run_Mounted (take k evs) _ (mount_Mounted r0 p0) Ha) as Hm.
  destruct (render_Mounted _ r p Hm) as [_ Hout].
  exists (step (run (mount r0 p0).1 (take k evs)) (EvRender r p)), (frame p), (container p).
  split; [by apply trace_lookup|].
  split; [done|].
  split; [apply frame_visible|apply container_children].
Qed.

Lemma render_after_first_witness :
  exists st out c,
    trace (mount home noChildren).1 [EvFlush; EvRender article threeChildren; EvRender home oneChild] !! 1
      = Some st
    /\ rendered st.2 = Some (Ok out)
    /\ visible out = [banner; c]
    /\ childrenOf c
       = [El Navigation None []] ++ [marker "A"; marker "B"; marker "C"] ++ [El Footer None []].
Proof.
  apply (render_after_first home noChildren
           [EvFlush; EvRender article threeChildren; EvRender home oneChild]
           1 article threeChildren); reflexivity.
Defined.

(** ** MountState along a lifecycle *)

Section FlagHistory.

Lemma flagsFrom_cons (s : option Instance) (ev : Event) (evs : list Event) :
  flagsFrom s (ev :: evs)
  = domLoadedOf (step s ev).1 :: flagsFrom (step s ev).1 evs.
Proof. reflexivity. Qed.

Lemma flags_unfold (r : Router) (p : Props) (evs : list Event) :
  flags r p evs = Some false :: flagsFrom (Some notReady) evs.
Proof. unfold flags. by rewrite mount_eq. Qed.

Lemma flagsFrom_unmounted (evs : list Event) :
  flagsFrom None evs = replicate (length evs) None.
Proof.
  induction evs as [|ev evs IH]; [done|].
  rewrite flagsFrom_cons. simpl. by rewrite IH.
Qed.

Lemma flagsFrom_ready (evs : list Event) :
  exists m k,
    flagsFrom (Some ready) evs = replicate m (Some true) ++ replicate k None.
Proof.
  induction evs as [|ev evs (m & k & IH)]; [by exists 0, 0|].
  destruct ev as [|r p|]; rewrite flagsFrom_cons; autorewrite with shell; simpl fst; simpl domLoadedOf.
  - exists (S m), k. by rewrite IH.
  - exists (S m), k. by rewrite IH.
  - exists 0, (S (length evs)). simpl. f_equal. apply flagsFrom_unmounted.
Qed.

Lemma flagsFrom_readying (evs : list Event) :
  exists n m k,
    flagsFrom (Some readying) evs
    = replicate n (Some false) ++ replicate m (Some true) ++ replicate k None.
Proof.
  induction evs as [|ev evs (n & m & k & IH)]; [by exists 0, 0, 0|].
  destruct ev as [|r p|]; rewrite flagsFrom_cons; autorewrite with shell; simpl fst; simpl domLoadedOf.
  - exists (S n), m, k. by rewrite IH.
  - destruct (flagsFrom_ready evs) as (m' & k' & Hr).
    exists 0, (S m'), k'. simpl. f_equal. exact Hr.
  - exists 0, 0, (S (length evs)). simpl. f_equal. apply flagsFrom_unmounted.
Qed.

Lemma flagsFrom_notReady (evs : list Event) :
  exists n m k,
    flagsFrom (Some notReady) evs
    = replicate n (Some false) ++ replicate m (Some true) ++ replicate k None.
Proof.
  destruct evs as [|ev evs]; [by exists 0, 0, 0|].
  destruct ev as [|r p|]; rewrite flagsFrom_cons; autorewrite with shell; simpl fst; simpl domLoadedOf.
  - destruct (flagsFrom_readying evs) as (n & m & k & Hr).
    exists (S n), m, k. simpl. f_equal. exact Hr.
  - destruct (flagsFrom_ready evs) as (m' & k' & Hr).
    exists 0, (S m'), k'. simpl. f_equal. exact Hr.
  - exists 0, 0, (S (length evs)). simpl. f_equal. apply flagsFrom_unmounted.
Qed.

Lemma transitions_unmounted (evs : list Event) :
  transitions (None :: flagsFrom None evs) = 0.
Proof.
  rewrite flagsFrom_unmounted. generalize (length evs) as n.
  induction n as [|n IH]; [done|]. exact IH.
Qed.

Lemma transitions_ready (evs : list Event) :
  transitions (Some true :: flagsFrom (Some ready) evs) = 0.
Proof.
  induction evs as [|ev evs IH]; [done|].
  destruct ev as [|r p|]; rewrite flagsFrom_cons; autorewrite with shell; simpl fst; simpl domLoadedOf.
  - exact IH.
  - exact IH.
  - exact (transitions_unmounted evs).
Qed.

Lemma transitions_readying (evs : list Event) :
  transitions (Some false :: flagsFrom (Some readying) evs)
  = if rerenderHappens evs then 1 else 0.
Proof.
  induction evs as [|ev evs IH]; [done|].
  destruct ev as [|r p|]; rewrite flagsFrom_cons; autorewrite with shell; simpl fst; simpl domLoadedOf.
  - exact IH.
  - change (S (transitions (Some true :: flagsFrom (Some ready) evs)) = 1).
    by rewrite transitions_ready.
  - exact (transitions_unmounted evs).
Qed.

Lemma transitions_notReady (evs : list Event) :
  transitions (Some false :: flagsFrom (Some notReady) evs)
  = if rerenderHappens evs then 1 else 0.
Proof.
  destruct evs as [|ev evs]; [done|].
  destruct ev as [|r p|]; rewrite flagsFrom_cons; autorewrite with shell; simpl fst; simpl domLoadedOf.
  - exact (transitions_readying evs).
  - change (S (transitions (Some true :: flagsFrom (Some ready) evs)) = 1).
    by rewrite transitions_ready.
  - exact (transitions_unmounted evs).
Qed.

Lemma transitions_flags (r : Router) (p : Props) (evs : list Event) :
  transitions (flags r p evs) = if rerenderHappens evs then 1 else 0.
Proof. rewrite flags_unfold. apply transitions_notReady. Qed.

Lemma flags_shape (r : Router) (p : Props) (evs : list Event) :
  exists n m k,
    flags r p evs
    = replicate (S n) (Some false) ++ replicate m (Some true) ++ replicate k None.
Proof.
  rewrite flags_unfold.
  destruct (flagsFrom_notReady evs) as (n & m & k & H).
  exists n, m, k. simpl. by rewrite H.
Qed.

End FlagHistory.

(** C3: in every lifecycle the flag is [false] after the construction; the
    values it takes, after the construction and after each event, are
    [false] one or more times, then [true] any number of times, then no
    flag at all once unmounted.  So it goes from [false] to [true] at most
    once and never from [true] to [false]; a step from the ready state
    that is not an unmount leaves the flag [true]. *)
Theorem flag_monotone (r : Router) (p : Props) (evs : list Event) :
  domLoadedOf (mount r p).1 = Some false
  /\ (exists n m k,
        flags r p evs
        = replicate (S n) (Some false) ++ replicate m (Some true) ++ replicate k None)
  /\ transitions (flags r p evs) <= 1
  /\ (forall ev, domLoadedOf (run (mount r p).1 evs) = Some true ->
        ev <> EvUnmount ->
        domLoadedOf (step (run (mount r p).1 evs) ev).1 = Some true).
Proof.
  split; [by rewrite mount_eq|].
  split; [apply flags_shape|].
  split.
  - rewrite transitions_flags. destruct (rerenderHappens evs); lia.
  - intros ev Ht Hev.
    pose proof (run_Phase evs _ (Mounted_Phase _ (mount_Mounted r p))) as Hp.
    destruct Hp; try discriminate Ht.
    destruct ev; try done; by autorewrite with shell.
Qed.

Lemma flag_monotone_witness :
  domLoadedOf
    (step (run (mount home noChildren).1 [EvFlush; EvRender home oneChild]) EvFlush).1
  = Some true.
Proof.
  destruct (flag_monotone home noChildren [EvFlush; EvRender home oneChild])
    as (_ & _ & _ & H).
  apply H; [reflexivity|discriminate].
Defined.

(** ** The effect runs once *)

Lemma step_Settled (s : option Instance) (ev : Event) :
  Settled s -> Settled (step s ev).1 /\ quiet (step s ev).
Proof.
  destruct 1, ev; autorewrite with shell; (split; [simpl; auto with shell|by split]).
Qed.

Lemma trace_Settled (evs : list Event) (s : option Instance) :
  Settled s -> Forall quiet (trace s evs).
Proof.
  revert s. induction evs as [|ev evs IH]; intros s Hs; simpl; constructor.
  - by apply step_Settled.
  - by apply IH, step_Settled.
Qed.

(** The first step after the construction, whatever its event, runs the
    effect: one call [setDomLoaded(true)], one re-render scheduled. *)
Lemma step_notReady (ev : Event) :
  Settled (step (Some notReady) ev).1
  /\ performed (step (Some notReady) ev).2 = [Dispatch 0 true]
  /\ rerenders (step (Some notReady) ev).2 = 1.
Proof. destruct ev; autorewrite with shell; simpl; auto with shell. Qed.

Lemma applied_settled (s : option Instance) (ev : Event) :
  s = Some ready \/ s = None -> applied s ev = 0.
Proof. intros [-> | ->]; by destruct ev. Qed.

Lemma step_settled (s : option Instance) (ev : Event) :
  s = Some ready \/ s = None ->
  (step s ev).1 = Some ready \/ (step s ev).1 = None.
Proof. intros [-> | ->]; destruct ev; autorewrite with shell; auto. Qed.

Lemma appliedAlong_settled (evs : list Event) (s : option Instance) :
  s = Some ready \/ s = None -> appliedAlong s evs = 0.
Proof.
  revert s. induction evs as [|ev evs IH]; intros s Hs; simpl; [done|].
  rewrite (applied_settled _ _ Hs). by apply IH, step_settled.
Qed.

Lemma run_settled (evs : list Event) (s : option Instance) :
  s = Some ready \/ s = None -> run s evs = Some ready \/ run s evs = None.
Proof.
  revert s. induction evs as [|ev evs IH]; intros s Hs; simpl; [done|].
  by apply IH, step_settled.
Qed.

(** Once the shell is ready, or gone, the work loop has no render pass of
    its own to make. *)
Lemma rerenderDue_settled (f : Fiber) :
  current f = Some ready \/ current f = None -> rerenderDue f = false.
Proof. unfold rerenderDue. by intros [-> | ->]. Qed.

Lemma selfRenders_settled (cs : list Command) (f : Fiber) :
  current f = Some ready \/ current f = None -> selfRenders f cs = 0.
Proof.
  revert f. induction cs as [|c cs IH]; intros f Hf; simpl; [done|].
  rewrite (rerenderDue_settled f Hf), IH; [by destruct c|].
  simpl. by apply run_settled.
Qed.

(** The first command that is not an unmount leaves the shell ready. *)
Lemma perform_start (r : Router) (p : Props) (c : Command) :
  staysMounted c = true -> current (perform (start r p) c) = Some ready.
Proof. by destruct c. Qed.



(** ** The frame *)

(** C5, as stated, fails: in the lifecycle that mounts the shell without
    children and renders it once more, the flag is [true]; the next render
    pass yields a tree in which the banner is not inside the container. *)
Lemma banner_not_inside_container :
  domLoadedOf (run (mount home noChildren).1 [EvRender home noChildren]) = Some true
  /\ exists out,
       rendered (step (run (mount home noChildren).1 [EvRender home noChildren])
                      (EvRender home noChildren)).2
       = Some (Ok out)
       /\ ~ insideContainer banner out.
Proof.
  split; [reflexivity|].
  exists (frame noChildren). split; [reflexivity|].
  intros (c & Hc & Hcls & Hin).
  simpl in Hc.
  destruct Hc as [->|[<-|[<-|[<-|[<-|[]]]]]]; simpl in *;
    try discriminate Hcls.
  destruct Hin as [H|[H|[]]]; discriminate H.
Qed.

(** A render pass in which the flag reads [true] is a pass of a mounted
    instance: the pass that first shows the frame, or a later one. *)
Lemma reads_true_Mounted (s : option Instance) (r : Router) (p : Props) :
  Phase s -> domLoadedOf (step s (EvRender r p)).1 = Some true -> Mounted s.
Proof. destruct 1; autorewrite with shell; simpl; try done; constructor. Qed.

Lemma run_reads_true (r0 : Router) (p0 : Props) (evs : list Event)
    (r : Router) (p : Props) :
  domLoadedOf (step (run (mount r0 p0).1 evs) (EvRender r p)).1 = Some true ->
  rendered (step (run (mount r0 p0).1 evs) (EvRender r p)).2
  = Some (Ok (frame p)).
Proof.
  intros Ht. apply render_Mounted, (reads_true_Mounted _ r p); [|done].
  apply run_Phase, Mounted_Phase, mount_Mounted.
Qed.

(** C5, amended: every render pass of a lifecycle in which the flag reads
    [true], the pass that first reads it and every later one, succeeds with
    a fragment of two children: first the banner, an element without
    children that carries the class of the banner, then, beside it, the
    container, which carries the class of the container and whose children
    are the navigation, the elements supplied, and the footer. *)
Theorem ready_render_frame (r0 : Router) (p0 : Props) (evs : list Event)
    (r : Router) (p : Props) :
  domLoadedOf (step (run (mount r0 p0).1 evs) (EvRender r p)).1 = Some true ->
  exists out c,
    rendered (step (run (mount r0 p0).1 evs) (EvRender r p)).2 = Some (Ok out)
    /\ type_of out = Fragment
    /\ childrenOf out = [banner; c]
    /\ className_of banner = Some bannerClass
    /\ childrenOf banner = []
    /\ className_of c = Some containerClass
    /\ childrenOf c
       = [El Navigation None []] ++ childElements (children p) ++ [El Footer None []].
Proof.
  intros Ht. rewrite (run_reads_true _ _ _ _ _ Ht).
  exists (frame p), (container p). by repeat split.
Qed.

Lemma ready_render_frame_witness :
  (exists out c,
     rendered (step (run (mount home noChildren).1 []) (EvRender article threeChildren)).2
     = Some (Ok out)
     /\ type_of out = Fragment
     /\ childrenOf out = [banner; c]
     /\ className_of banner = Some bannerClass
     /\ childrenOf banner = []
     /\ className_of c = Some containerClass
     /\ childrenOf c
        = [El Navigation None []] ++ [marker "A"; marker "B"; marker "C"]
          ++ [El Footer None []])
  /\ (exists out c,
        rendered (step (run (mount home noChildren).1 [EvFlush; EvRender home oneChild])
                       (EvRender article threeChildren)).2
        = Some (Ok out)
        /\ type_of out = Fragment
        /\ childrenOf out = [banner; c]
        /\ className_of banner = Some bannerClass
        /\ childrenOf banner = []
        /\ className_of c = Some containerClass
        /\ childrenOf c
           = [El Navigation None []] ++ [marker "A"; marker "B"; marker "C"]
             ++ [El Footer None []]).
Proof.
  split.
  - apply (ready_render_frame home noChildren [] article threeChildren).
    reflexivity.
  - apply (ready_render_frame home noChildren [EvFlush; EvRender home oneChild]
             article threeChildren).
    reflexivity.
Defined.

(** C6: when the children supplied hold no element (the property is
    absent, or an empty array), every render pass of a lifecycle in which
    the flag reads [true], the pass that first reads it and every later
    one, succeeds; the banner and the container reach the page, and the
    children of the container are the navigation and the footer with
    nothing between them. *)
Theorem zero_children_frame (r0 : Router) (p0 : Props) (evs : list Event)
    (r : Router) (p : Props) :
  domLoadedOf (step (run (mount r0 p0).1 evs) (EvRender r p)).1 = Some true ->
  childElements (children p) = [] ->
  exists out c,
    rendered (step (run (mount r0 p0).1 evs) (EvRender r p)).2 = Some (Ok out)
    /\ visible out = [banner; c]
    /\ className_of c = Some containerClass
    /\ childrenOf c = [El Navigation None []; El Footer None []].
Proof.
  intros Ht Hz. rewrite (run_reads_true _ _ _ _ _ Ht).
  exists (frame p), (container p).
  repeat split. by rewrite container_children, Hz.
Qed.

Lemma zero_children_frame_witness :
  (exists out c,
     rendered (step (run (mount home noChildren).1 []) (EvRender home noChildren)).2
     = Some (Ok out)
     /\ visible out = [banner; c]
     /\ className_of c = Some containerClass
     /\ childrenOf c = [El Navigation None []; El Footer None []])
  /\ (exists out c,
        rendered (step (run (mount home oneChild).1 [EvFlush])
                       (EvRender home (mkProps (ChildArray [])))).2
        = Some (Ok out)
        /\ visible out = [banner; c]
        /\ className_of c = Some containerClass
        /\ childrenOf c = [El Navigation None []; El Footer None []])
  /\ (exists out c,
        rendered (step (run (mount home oneChild).1 [EvRender home oneChild])
                       (EvRender home noChildren)).2
        = Some (Ok out)
        /\ visible out = [banner; c]
        /\ className_of c = Some containerClass
        /\ childrenOf c = [El Navigation None []; El Footer None []]).
Proof.
  split; [|split].
  - apply (zero_children_frame home noChildren [] home noChildren); reflexivity.
  - apply (zero_children_frame home oneChild [EvFlush]
             home (mkProps (ChildArray []))); reflexivity.
  - apply (zero_children_frame home oneChild [EvRender home oneChild]
             home noChildren); reflexivity.
Defined.

(** ** No failure *)

Lemma step_rendered (s : option Instance) (ev : Event) :
  Phase s -> rendered (step s ev).2 = expectedOutput s ev.
Proof. destruct 1, ev; by autorewrite with shell. Qed.

Lemma trace_no_error (evs : list Event) (s : option Instance) :
  Phase s ->
  Forall (fun st => forall e, rendered st.2 <> Some (Err e)) (trace s evs).
Proof.
  revert s. induction evs as [|ev evs IH]; intros s Hs; simpl; constructor.
  - intros e. rewrite (step_rendered _ _ Hs). by destruct s, ev.
  - by apply IH, step_Phase.
Qed.

Lemma step_mounted (s : option Instance) (ev : Event) :
  Phase s ->
  mounted (step s ev).1
  = mounted s && match ev with EvUnmount => false | _ => true end.
Proof. destruct 1, ev; by autorewrite with shell. Qed.

Lemma run_mounted (evs : list Event) (s : option Instance) :
  Phase s -> mounted (run s evs) = mounted s && alive evs.
Proof.
  revert s. induction evs as [|ev evs IH]; intros s Hs; simpl.
  - by rewrite andb_true_r.
  - rewrite (IH _ (step_Phase _ ev Hs)), (step_mounted _ _ Hs).
    by rewrite andb_assoc.
Qed.

(** C7: in every lifecycle, whatever the routers and the children (absent
    children included), no render pass fails.  The first pass succeeds; no
    step of the lifecycle reports an error; in every state reached, a
    render pass with any router and children yields the frame when there
    is an instance and does not take place when there is none; the
    instance is there exactly as long as no unmount was asked for, so no
    failure ever tears it down; and the step that follows the first pass
    calls the setter whatever its event. *)
Theorem render_never_fails (r0 : Router) (p0 : Props) (evs : list Event)
    (ev : Event) (r : Router) (p : Props) :
  rendered (mount r0 p0).2 = Some (Ok emptyFragment)
  /\ Forall (fun st => forall e, rendered st.2 <> Some (Err e))
            (trace (mount r0 p0).1 evs)
  /\ rendered (step (run (mount r0 p0).1 evs) (EvRender r p)).2
     = (if mounted (run (mount r0 p0).1 evs) then Some (Ok (frame p)) else None)
  /\ mounted (run (mount r0 p0).1 evs) = alive evs
  /\ performed (step (mount r0 p0).1 ev).2 = [Dispatch 0 true].
Proof.
  pose proof (Mounted_Phase _ (mount_Mounted r0 p0)) as Hp.
  split; [by rewrite mount_eq|].
  split; [by apply trace_no_error|].
  split.
  - rewrite (step_rendered _ _ (run_Phase evs _ Hp)).
    by destruct (run (mount r0 p0).1 evs).
  - split.
    + rewrite (run_mounted _ _ Hp). by rewrite mount_eq.
    + rewrite mount_eq. apply step_notReady.
Qed.

(** ** Unmounting *)

Lemma step_unmount (s : option Instance) : (step s EvUnmount).1 = None.
Proof.
  destruct s as [inst|]; [|done].
  unfold step. by destruct (flushPassiveEffects inst) as [[? ?] ?].
Qed.

(** ** The page *)

Section PageSteps.

Implicit Types (w : World) (sigma : gmap nat Instance) (e : WorldEvent).

Lemma lookup_put_eq sigma (i : nat) (s : option Instance) :
  put i s sigma !! i = s.
Proof.
  destruct s as [inst|]; simpl; [apply lookup_insert_eq|apply lookup_delete_eq].
Qed.

Lemma lookup_put_ne sigma (i j : nat) (s : option Instance) :
  i <> j -> put i s sigma !! j = sigma !! j.
Proof.
  intros Hij. destruct s as [inst|]; simpl;
    [by apply lookup_insert_ne|by apply lookup_delete_ne].
Qed.

Lemma shells_absorb (i : nat) (acts : list Action) w :
  shells (absorb i acts w) = shells w.
Proof.
  unfold absorb. revert w. induction acts as [|a acts IH]; intros w; [done|].
  simpl. rewrite IH. by destruct a.
Qed.

(** The steps of a shell call nothing but its own setter. *)
Lemma step_performed_Phase (s : option Instance) (ev : Event) :
  Phase s ->
  performed (step s ev).2 = [] \/ performed (step s ev).2 = [Dispatch 0 true].
Proof. destruct 1, ev; autorewrite with shell; simpl; auto. Qed.

Lemma absorb_own (i : nat) (acts : list Action) w :
  acts = [] \/ acts = [Dispatch 0 true] -> absorb i acts w = w.
Proof. by intros [-> | ->]. Qed.

Lemma deliver_step w (i : nat) (ev : Event) :
  Phase (shells w !! i) ->
  deliver w (WStep i ev)
  = (mkWorld (put i (step (shells w !! i) ev).1 (shells w)) (timers w) (calls w),
     (step (shells w !! i) ev).2).
Proof.
  intros Hp. unfold deliver, stepAt.
  pose proof (step_performed_Phase _ ev Hp) as Hacts.
  destruct (step (shells w !! i) ev) as [s log]. simpl in *.
  by rewrite absorb_own.
Qed.

Lemma deliver_mount w (i : nat) (r : Router) (p : Props) :
  deliver w (WMount i r p)
  = match shells w !! i with
    | Some _ => (mkWorld (shells w) (timers w) (calls w), idle)
    | None =>
        (mkWorld (<[i := notReady]> (shells w)) (timers w) (calls w),
         mkLog (Some (Ok emptyFragment)) [] 0)
    end.
Proof.
  unfold deliver, mountAt. destruct (shells w !! i); [done|].
  by rewrite mount_eq.
Qed.

Lemma deliver_fire_none w : timers w = [] -> deliver w WFire = (w, idle).
Proof. intros H. unfold deliver. by rewrite H. Qed.

Lemma emptyWorld_Clean : Clean emptyWorld.
Proof.
  repeat split. intros i. simpl. rewrite lookup_empty. constructor.
Qed.

Lemma deliver_Clean w e : Clean w -> Clean (deliver w e).1.
Proof.
  intros (Ht & Hc & Hp). destruct e as [i r p|i ev|].
  - rewrite deliver_mount. destruct (shells w !! i) eqn:Hi;
      unfold Clean; cbn [fst shells timers calls].
    + done.
    + split; [done|]. split; [done|]. intros j.
      destruct (decide (i = j)) as [->|Hij].
      * rewrite lookup_insert_eq. constructor.
      * rewrite lookup_insert_ne by done. apply Hp.
  - rewrite deliver_step by apply Hp.
    unfold Clean; cbn [fst shells timers calls].
    split; [done|]. split; [done|]. intros j.
    destruct (decide (i = j)) as [->|Hij].
    + rewrite lookup_put_eq. apply step_Phase, Hp.
    + rewrite lookup_put_ne by done. apply Hp.
  - rewrite deliver_fire_none by done. by repeat split.
Qed.

Lemma deliverAll_Clean (es : list WorldEvent) w :
  Clean w -> Clean (deliverAll w es).
Proof.
  revert w. induction es as [|e es IH]; intros w Hw; [done|].
  simpl. by apply IH, deliver_Clean.
Qed.

Lemma deliverAll_cons e (es : list WorldEvent) w :
  deliverAll w (e :: es) = deliverAll (deliver w e).1 es.
Proof. reflexivity. Qed.

(** An event that is not addressed to a shell leaves it as it is. *)
Lemma deliver_other w e (i : nat) :
  Clean w -> targets i e = false ->
  shells (deliver w e).1 !! i = shells w !! i.
Proof.
  intros (Ht & Hc & Hp) He. destruct e as [j r p|j ev|]; simpl in He.
  - apply bool_decide_eq_false in He. rewrite deliver_mount.
    destruct (shells w !! j); cbn [fst shells]; [done|].
    by rewrite lookup_insert_ne.
  - apply bool_decide_eq_false in He. rewrite deliver_step by apply Hp.
    cbn [fst shells]. by rewrite lookup_put_ne.
  - by rewrite deliver_fire_none.
Qed.

Lemma deliverAll_other (es : list WorldEvent) w (i : nat) :
  Clean w -> forallb (fun e => negb (targets i e)) es = true ->
  shells (deliverAll w es) !! i = shells w !! i.
Proof.
  revert w. induction es as [|e es IH]; intros w Hw Hes; [done|].
  simpl in *. apply andb_prop in Hes as [He Hes].
  apply negb_true_iff in He.
  rewrite IH by (by auto using deliver_Clean). by apply deliver_other.
Qed.

(** A shell that is gone stays gone unless it is constructed again. *)
Lemma deliver_gone w e (i : nat) :
  Clean w -> shells w !! i = None -> mounts i e = false ->
  shells (deliver w e).1 !! i = None.
Proof.
  intros Hw Hi He. destruct (targets i e) eqn:Ht.
  - destruct e as [j r p|j ev|]; cbn [targets mounts] in *; [congruence| |done].
    apply bool_decide_eq_true in Ht as ->.
    rewrite deliver_step by apply Hw. cbn [fst shells].
    by rewrite lookup_put_eq, Hi.
  - by rewrite deliver_other.
Qed.

Lemma deliverAll_gone (es : list WorldEvent) w (i : nat) :
  Clean w -> shells w !! i = None ->
  forallb (fun e => negb (mounts i e)) es = true ->
  shells (deliverAll w es) !! i = None.
Proof.
  revert w. induction es as [|e es IH]; intros w Hw Hi Hes; [done|].
  simpl in *. apply andb_prop in Hes as [He Hes].
  apply negb_true_iff in He.
  apply IH; [by apply deliver_Clean| |done]. by apply deliver_gone.
Qed.

(** Flushes leave a shell that was not rendered again short of ready. *)
Lemma flushes_not_ready (n : nat) w (i : nat) :
  Clean w ->
  shells w !! i = Some notReady \/ shells w !! i = Some readying ->
  shells (deliverAll w (replicate n (WStep i EvFlush))) !! i = Some notReady
  \/ shells (deliverAll w (replicate n (WStep i EvFlush))) !! i = Some readying.
Proof.
  revert w. induction n as [|n IH]; intros w Hw Hi; [done|].
  cbn [replicate]. rewrite deliverAll_cons. apply IH; [by apply deliver_Clean|].
  rewrite deliver_step by apply Hw. cbn [fst shells]. rewrite lookup_put_eq.
  destruct Hi as [-> | ->]; autorewrite with shell; auto.
Qed.

Lemma beforeReady_spec (es0 : list WorldEvent) (i : nat) (r : Router) (p : Props)
    (mid : list WorldEvent) (n : nat) :
  shells (deliverAll emptyWorld es0) !! i = None ->
  forallb (fun e => negb (targets i e)) mid = true ->
  Clean (beforeReady es0 i r p mid n)
  /\ (shells (beforeReady es0 i r p mid n) !! i = Some notReady
      \/ shells (beforeReady es0 i r p mid n) !! i = Some readying).
Proof.
  intros Hfresh Hmid. unfold beforeReady.
  pose proof (deliverAll_Clean es0 _ emptyWorld_Clean) as H0.
  pose proof (deliver_Clean _ (WMount i r p) H0) as H1.
  pose proof (deliverAll_Clean mid _ H1) as H2.
  split; [by apply deliverAll_Clean|].
  apply flushes_not_ready; [done|]. left.
  rewrite deliverAll_other by done.
  rewrite deliver_mount, Hfresh. cbn [fst shells]. apply lookup_insert_eq.
Qed.

End PageSteps.

(** An effect that is not the shell's can outlive its instance: on the
    sample page the instance at 1 is unmounted with its effect pending;
    the effect runs, leaves a second timer and makes a call outside; the
    timers remain when the instance is gone.  And a timer that fires on an
    instance that is there queues its update. *)
Example effects_can_reach_outside :
  shells (deliver busyPage (WStep 1 EvUnmount)).1 !! 1 = None
  /\ timers (deliver busyPage (WStep 1 EvUnmount)).1 = [(1, 0, true); (1, 0, true)]
  /\ calls (deliver busyPage (WStep 1 EvUnmount)).1
     = [("localStorage.setItem", "seen"); ("fetch", "/api/visits")]
  /\ hooks <$> (shells (deliver busyPage WFire).1 !! 1)
     = Some [StateHook false [true]; EffectHook (Some [])].
Proof. repeat split; vm_compute; reflexivity. Qed.

(** C8: take a page with any history, a shell constructed on it and
    unmounted before it is ever rendered again, after any events for the
    other shells and any number of flushes of its own.  Until the unmount
    its flag is [false].  The unmount leaves no instance, and with it no
    cells and no queued update, no timer on the page and no call made to
    the outside: the effect of the shell sets nothing up that could come
    later.  From then on a timer that fires and an event sent to the shell
    do nothing at all, and whatever else happens on the page, short of
    constructing the shell again, there is no instance and no timer. *)
Theorem unmount_before_ready (es0 : list WorldEvent) (i : nat) (r : Router)
    (p : Props) (mid : list WorldEvent) (n : nat) (post : list WorldEvent)
    (ev : Event) :
  shells (deliverAll emptyWorld es0) !! i = None ->
  forallb (fun e => negb (targets i e)) mid = true ->
  forallb (fun e => negb (mounts i e)) post = true ->
  domLoadedOf (shells (beforeReady es0 i r p mid n) !! i) = Some false
  /\ shells (unmountedEarly es0 i r p mid n) !! i = None
  /\ timers (unmountedEarly es0 i r p mid n) = []
  /\ calls (unmountedEarly es0 i r p mid n) = []
  /\ deliver (unmountedEarly es0 i r p mid n) WFire
     = (unmountedEarly es0 i r p mid n, idle)
  /\ deliver (unmountedEarly es0 i r p mid n) (WStep i ev)
     = (unmountedEarly es0 i r p mid n, idle)
  /\ shells (deliverAll (unmountedEarly es0 i r p mid n) post) !! i = None
  /\ timers (deliverAll (unmountedEarly es0 i r p mid n) post) = [].
Proof.
  intros Hfresh Hmid Hpost.
  destruct (beforeReady_spec es0 i r p mid n Hfresh Hmid) as [Hclean Hi].
  pose proof (deliver_Clean _ (WStep i EvUnmount) Hclean) as Hc3.
  fold (unmountedEarly es0 i r p mid n) in Hc3.
  assert (shells (unmountedEarly es0 i r p mid n) !! i = None) as Hgone.
  { unfold unmountedEarly. rewrite deliver_step by apply Hclean.
    cbn [fst shells]. rewrite lookup_put_eq. apply step_unmount. }
  split; [by destruct Hi as [-> | ->]|].
  split; [done|].
  split; [apply Hc3|]. split; [apply Hc3|].
  split; [apply deliver_fire_none, Hc3|].
  split.
  - rewrite deliver_step by apply Hc3. rewrite Hgone.
    rewrite step_unmounted. cbn [fst snd put].
    destruct (unmountedEarly es0 i r p mid n) as [sigma ts cs].
    cbn [shells timers calls] in *. by rewrite delete_id.
  - split; [by apply deliverAll_gone|].
    by apply (deliverAll_Clean post).
Qed.

Lemma unmount_before_ready_witness :
  domLoadedOf
    (shells (beforeReady [WMount 0 home oneChild; WStep 0 EvFlush] 1 article
               threeChildren [WStep 0 (EvRender home noChildren)] 2) !! 1)
  = Some false
  /\ shells (unmountedEarly [WMount 0 home oneChild; WStep 0 EvFlush] 1 article
               threeChildren [WStep 0 (EvRender home noChildren)] 2) !! 1
     = None
  /\ timers (unmountedEarly [WMount 0 home oneChild; WStep 0 EvFlush] 1 article
               threeChildren [WStep 0 (EvRender home noChildren)] 2)
     = [].
Proof.
  destruct (unmount_before_ready [WMount 0 home oneChild; WStep 0 EvFlush] 1
              article threeChildren [WStep 0 (EvRender home noChildren)] 2
              [WFire; WStep 1 EvFlush; WStep 0 EvUnmount] EvFlush)
    as (H1 & H2 & H3 & _); [vm_compute; reflexivity|reflexivity|reflexivity|].
  exact (conj H1 (conj H2 H3)).
Defined.

(** ** Nothing but the own flag *)

Lemma quiet_actions (tr : list (option Instance * StepLog)) :
  Forall quiet tr -> concat (map (fun st => performed st.2) tr) = [].
Proof.
  induction 1 as [|st tr [Hp _] _ IH]; simpl; [done|]. by rewrite Hp, IH.
Qed.

Lemma lifecycle_actions (r : Router) (p : Props) (evs : list Event) :
  concat (map (fun st => performed st.2) (trace (mount r p).1 evs))
  = match evs with [] => [] | _ :: _ => [Dispatch 0 true] end.
Proof.
  rewrite mount_eq. destruct evs as [|ev evs]; [done|].
  destruct (step_notReady ev) as (Hs & Hp & _).
  change (performed (step (Some notReady) ev).2
          ++ concat (map (fun st => performed st.2)
                         (trace (step (Some notReady) ev).1 evs))
          = [Dispatch 0 true]).
  by rewrite Hp, (quiet_actions _ (trace_Settled evs _ Hs)).
Qed.

(** C9: on a page that holds anything at all, timers, calls made and
    other instances, take a shell [i] in any of its phases.  Constructing
    it, or sending it any event, sets no timer and makes no call to the
    outside, leaves every other instance [j] as it is, and leaves the shell
    in one of its phases, where its cells are the flag and the effect cell
    that never changes.  A page on which only shells have ever been
    mounted and stepped has no timer and no call made, whatever its
    history.  And over a whole lifecycle the calls a shell makes are none
    while only the first render pass happened, and the single call
    [setDomLoaded(true)], on its own first cell, as soon as anything
    follows. *)
Theorem only_own_flag (w : World) (i j : nat) (r : Router) (p : Props)
    (ev : Event) (evs : list Event) (es : list WorldEvent) :
  Phase (shells w !! i) ->
  i <> j ->
  (timers (deliver w (WStep i ev)).1 = timers w
   /\ calls (deliver w (WStep i ev)).1 = calls w
   /\ shells (deliver w (WStep i ev)).1 !! j = shells w !! j
   /\ Phase (shells (deliver w (WStep i ev)).1 !! i))
  /\ (timers (deliver w (WMount i r p)).1 = timers w
      /\ calls (deliver w (WMount i r p)).1 = calls w
      /\ shells (deliver w (WMount i r p)).1 !! j = shells w !! j
      /\ Phase (shells (deliver w (WMount i r p)).1 !! i))
  /\ Clean (deliverAll emptyWorld es)
  /\ performed (mount r p).2 = []
  /\ concat (map (fun st => performed st.2) (trace (mount r p).1 evs))
     = match evs with [] => [] | _ :: _ => [Dispatch 0 true] end.
Proof.
  intros Hp Hij. split; [|split].
  - rewrite deliver_step by done. cbn [fst shells timers calls].
    split; [done|]. split; [done|].
    split; [by apply lookup_put_ne|].
    rewrite lookup_put_eq. by apply step_Phase.
  - rewrite deliver_mount.
    destruct (shells w !! i) eqn:Hi; cbn [fst shells timers calls].
    + by rewrite Hi.
    + split; [done|]. split; [done|].
      split; [by apply lookup_insert_ne|].
      rewrite lookup_insert_eq. constructor.
  - split; [apply deliverAll_Clean, emptyWorld_Clean|].
    split; [by rewrite mount_eq|apply lifecycle_actions].
Qed.

Lemma only_own_flag_witness :
  timers (deliver busyPage (WStep 0 EvFlush)).1 = timers busyPage
  /\ calls (deliver busyPage (WStep 0 EvFlush)).1 = calls busyPage
  /\ shells (deliver busyPage (WStep 0 EvFlush)).1 !! 1 = shells busyPage !! 1
  /\ Phase (shells (deliver busyPage (WStep 0 EvFlush)).1 !! 0).
Proof.
  apply (only_own_flag busyPage 0 1 home oneChild EvFlush [EvFlush] []).
  - change (Phase (Some notReady)). constructor.
  - lia.
Defined.

(** ** The router is not used *)

Lemma Layout_router (mounting : bool) (hs : list Hook) (r1 r2 : Router) (p : Props) :
  renderWithHooks mounting hs r1 (Layout p)
  = renderWithHooks mounting hs r2 (Layout p).
Proof.
  unfold renderWithHooks, Layout, mbind, render_bind, useRouter, useState,
    useEffect, mret, render_ret.
  destruct mounting; simpl; [done|].
  destruct (hs !! 0) as [[s q|d]|]; simpl; try done.
  destruct (<[0 := StateHook (applyQueue s q) []]> hs !! 1) as [[s' q'|d]|];
    simpl; try done.
  destruct (depsEqual d (Some [])); simpl;
    destruct (applyQueue s q); simpl; done.
Qed.

(** C10: two render passes of the shell over the same cells, so with the
    same flag, and with the same children yield the same result whatever
    the two routers are: the same element, the same cells and the same
    effects, or the same failure.  The same holds for the construction and
    for a render step from any state. *)
Theorem router_is_irrelevant (mounting : bool) (hs : list Hook)
    (s : option Instance) (r1 r2 : Router) (p : Props) :
  renderWithHooks mounting hs r1 (Layout p)
  = renderWithHooks mounting hs r2 (Layout p)
  /\ mount r1 p = mount r2 p
  /\ step s (EvRender r1 p) = step s (EvRender r2 p).
Proof.
  split; [apply Layout_router|].
  split; [unfold mount; by rewrite (Layout_router true [] r1 r2)|].
  destruct s as [inst|]; [|done].
  unfold step. destruct (flushPassiveEffects inst) as [[inst' acts] n].
  by rewrite (Layout_router false (hooks inst') r1 r2).
Qed.

(** * More on the shell *)


(** X2: what a render pass yields does not depend on what came before in
    the lifecycle.  After any events without unmount, in lifecycles begun
    with any routers and children, a render pass with the children [p]
    yields the frame around [p] and leaves the same instance. *)
Theorem render_forgets_history (r1 r2 : Router) (p1 p2 : Props)
    (evs1 evs2 : list Event) (r r' : Router) (p : Props) :
  alive evs1 = true ->
  alive evs2 = true ->
  rendered (step (run (mount r1 p1).1 evs1) (EvRender r p)).2
  = Some (Ok (frame p))
  /\ (step (run (mount r1 p1).1 evs1) (EvRender r p)).1
     = (step (run (mount r2 p2).1 evs2) (EvRender r' p)).1
  /\ rendered (step (run (mount r1 p1).1 evs1) (EvRender r p)).2
     = rendered (step (run (mount r2 p2).1 evs2) (EvRender r' p)).2.
Proof.
  intros H1 H2.
  pose proof (run_Mounted evs1 _ (mount_Mounted r1 p1) H1) as M1.
  pose proof (run_Mounted evs2 _ (mount_Mounted r2 p2) H2) as M2.
  destruct M1, M2; autorewrite with shell; done.
Qed.

Lemma render_forgets_history_witness :
  (step (run (mount home threeChildren).1 [EvFlush]) (EvRender home oneChild)).1
  = (step (run (mount article noChildren).1
               [EvRender article threeChildren; EvFlush])
          (EvRender article oneChild)).1
  /\ rendered (step (run (mount home threeChildren).1 [EvFlush])
                    (EvRender home oneChild)).2
     = rendered (step (run (mount article noChildren).1
                           [EvRender article threeChildren; EvFlush])
                      (EvRender article oneChild)).2.
Proof.
  apply (render_forgets_history home article threeChildren noChildren
           [EvFlush] [EvRender article threeChildren; EvFlush]
           home article oneChild); reflexivity.
Defined.

(** X3: the flag does not outlive the instance.  Unmounting the shell [i]
    of a store leaves no shell [i], whatever state it was in; constructing
    it again yields an instance that is not ready, whose first render pass
    is again the empty fragment and whose flag is [false]. *)
Theorem remount_starts_over (sigma : gmap nat Instance) (i : nat)
    (r : Router) (p : Props) :
  (stepAt sigma i EvUnmount).1 !! i = None
  /\ (mountAt (stepAt sigma i EvUnmount).1 i r p).1 !! i = Some notReady
  /\ rendered (mountAt (stepAt sigma i EvUnmount).1 i r p).2
     = Some (Ok emptyFragment)
  /\ domLoadedOf ((mountAt (stepAt sigma i EvUnmount).1 i r p).1 !! i)
     = Some false.
Proof.
  assert ((stepAt sigma i EvUnmount).1 !! i = None) as Hnone.
  { unfold stepAt. pose proof (step_unmount (sigma !! i)) as Hu.
    destruct (step (sigma !! i) EvUnmount) as [s log]. simpl in *. subst s.
    simpl. apply lookup_delete_eq. }
  split; [done|].
  unfold mountAt. rewrite Hnone, mount_eq. simpl.
  rewrite lookup_insert_eq. done.
Qed.

(** * Grouping the headings *)

Section Grouping.

Implicit Types (data g : list Heading) (sol gs : list (list Heading)).

Lemma md_flatten_gen data g sol :
  concat (mdRecursiveSubRoutine data g sol).1 = concat sol ++ g ++ data
  /\ (mdRecursiveSubRoutine data g sol).2 = [].
Proof.
  revert g sol. induction data as [|h data IH]; intros g sol; simpl.
  - split; [|done]. by rewrite concat_app, app_nil_r; simpl; rewrite app_nil_r.
  - destruct (last g) as [l|] eqn:Hl.
    + destruct (depthCount h <? depthCount l)%Z.
      * destruct (IH [h] (sol ++ [g])) as [-> ->]. split; [|done].
        rewrite concat_app. simpl. by rewrite app_nil_r, <- app_assoc.
      * destruct (IH (g ++ [h]) sol) as [-> ->]. split; [|done].
        by rewrite <- !app_assoc.
    + apply last_None in Hl as ->.
      destruct (IH [h] sol) as [-> ->]. done.
Qed.

Lemma Sorted_snoc g l h :
  Sorted notDeeper g -> last g = Some l -> notDeeper l h ->
  Sorted notDeeper (g ++ [h]).
Proof.
  induction g as [|a g IH]; intros Hs Hl Hlh; [done|].
  inversion Hs as [|? ? Hs' Hhd]; subst.
  destruct g as [|b g].
  - simpl in Hl. inversion Hl; subst. repeat constructor. done.
  - simpl. constructor.
    + apply IH; [done| |done]. by rewrite last_cons_cons in Hl.
    + constructor. by inversion Hhd.
Qed.

Lemma Boundaries_snoc gs g g' :
  Boundaries (gs ++ [g]) -> resets g g' -> Boundaries (gs ++ [g; g']).
Proof.
  induction gs as [|g0 gs IH]; intros Hb Hr; simpl.
  - done.
  - destruct gs as [|g1 gs]; simpl in *.
    + destruct Hb as [H0 _]. done.
    + destruct Hb as [H0 Hb]. split; [done|]. by apply IH.
Qed.

Lemma resets_grow g0 g h :
  g <> [] -> resets g0 g -> resets g0 (g ++ [h]).
Proof.
  intros Hg (l & f & Hl & Hf & Hlt). exists l, f.
  split; [done|]. split; [|done]. by destruct g.
Qed.

Lemma Boundaries_grow gs g h :
  g <> [] -> Boundaries (gs ++ [g]) -> Boundaries (gs ++ [g ++ [h]]).
Proof.
  intros Hg. induction gs as [|g0 gs IH]; intros Hb; simpl; [done|].
  destruct gs as [|g1 gs]; simpl in *.
  - destruct Hb as [H0 _]. split; [|done]. by apply resets_grow.
  - destruct Hb as [H0 Hb]. split; [done|]. by apply IH.
Qed.

Lemma md_groups_gen data g sol :
  Forall (Sorted notDeeper) (sol ++ [g]) ->
  Boundaries (sol ++ [g]) ->
  Forall (Sorted notDeeper) (mdRecursiveSubRoutine data g sol).1
  /\ Boundaries (mdRecursiveSubRoutine data g sol).1.
Proof.
  revert g sol. induction data as [|h data IH]; intros g sol Hs Hb; simpl; [done|].
  rewrite Forall_app, Forall_singleton in Hs. destruct Hs as [Hsol Hg].
  destruct (last g) as [l|] eqn:Hl.
  - destruct (depthCount h <? depthCount l)%Z eqn:Hlt.
    + apply IH.
      * rewrite <- app_assoc, !Forall_app, !Forall_singleton.
        repeat split; [done..|]. repeat constructor.
      * rewrite <- app_assoc. apply Boundaries_snoc; [done|].
        exists l, h. split; [done|]. split; [done|]. lia.
    + apply IH.
      * rewrite Forall_app, Forall_singleton. split; [done|].
        apply (Sorted_snoc g l h); [done..|]. unfold notDeeper. lia.
      * apply Boundaries_grow; [|done]. intros ->. done.
  - apply last_None in Hl as ->. apply IH.
    + rewrite Forall_app, Forall_singleton. split; [done|]. repeat constructor.
    + clear -Hb. induction sol as [|g0 sol IHs]; simpl in *; [done|].
      destruct sol as [|g1 sol]; simpl in *.
      * destruct Hb as [(l & f & _ & Hf & _) _]. done.
      * destruct Hb as [H0 Hb]. split; [done|]. by apply IHs.
Qed.

Lemma md_nonempty_gen data g sol :
  Forall (fun x => x <> []) sol ->
  g <> [] \/ data <> [] ->
  Forall (fun x => x <> []) (mdRecursiveSubRoutine data g sol).1.
Proof.
  revert g sol. induction data as [|h data IH]; intros g sol Hsol Hg; simpl.
  - rewrite Forall_app, Forall_singleton. split; [done|]. by destruct Hg.
  - destruct (last g) as [l|] eqn:Hl.
    + assert (g <> []) by (intros ->; done).
      destruct (depthCount h <? depthCount l)%Z; apply IH; auto.
      * by rewrite Forall_app, Forall_singleton.
      * left. by destruct g.
    + apply IH; auto.
Qed.

End Grouping.

(** X4: flattening the groups gives the headings back, in their order,
    none lost and none added; and the array passed in is left empty. *)
Theorem md_flatten (data : list Heading) :
  concat (mdRecursiveSubRoutine data [] []).1 = data
  /\ (mdRecursiveSubRoutine data [] []).2 = [].
Proof.
  destruct (md_flatten_gen data [] []) as [H1 H2]. by rewrite H1, H2.
Qed.

(** X5: within each group the depth never decreases from a heading to the
    next, and each group after the first starts with a heading less deep
    than the last heading of the group before: the groups are the longest
    runs without a decrease. *)
Theorem md_groups (data : list Heading) :
  Forall (Sorted notDeeper) (mdRecursiveSubRoutine data [] []).1
  /\ Boundaries (mdRecursiveSubRoutine data [] []).1.
Proof.
  apply md_groups_gen; simpl; [|done]. repeat constructor.
Qed.

(** X6: there is always a group.  Without headings the result is one
    empty group, not the empty list; with at least one heading no group is
    empty. *)
Theorem md_always_a_group (h : Heading) (data : list Heading) :
  mdRecursiveSubRoutine [] [] [] = ([[]], [])
  /\ (mdRecursiveSubRoutine data [] []).1 <> []
  /\ Forall (fun g => g <> []) (mdRecursiveSubRoutine (h :: data) [] []).1.
Proof.
  split; [done|]. split.
  - assert (forall d g sol, (mdRecursiveSubRoutine d g sol).1 <> []) as Hne.
    { clear. induction d as [|x d IH]; intros g sol; simpl.
      - by destruct sol.
      - destruct (last g); [destruct (_ <? _)%Z|]; apply IH. }
    by apply (Hne data [] []).
  - apply md_nonempty_gen; [constructor|]. by right.
Qed.

(** * Generating the nested list *)

Section Generator.

Implicit Types (layer : list Heading) (code : JsString) (cc prev : Z).

Lemma forOpen_eq (n : nat) code (t : Z) :
  forOpen n code t
  = (code ++ renderTokens (replicate n Open), (t + Z.of_nat n)%Z).
Proof.
  revert code t. induction n as [|n IH]; intros code t.
  - simpl. f_equal; [by rewrite app_nil_r|lia].
  - cbn [forOpen]. rewrite IH. f_equal; [|lia].
    by rewrite <- app_assoc.
Qed.

Lemma whileClose_negative (fuel : nat) cc code :
  (cc < 0)%Z -> whileClose fuel cc code = None.
Proof.
  revert cc code. induction fuel as [|fuel IH]; intros cc code Hcc; [done|].
  simpl. destruct (cc =? 0)%Z eqn:E; [lia|]. apply IH. lia.
Qed.

Lemma whileClose_nonneg (n fuel : nat) code :
  n < fuel ->
  whileClose fuel (Z.of_nat n) code
  = Some ((-1)%Z, code ++ renderTokens (replicate n Close)).
Proof.
  revert n code. induction fuel as [|fuel IH]; intros n code Hn; [lia|].
  cbn [whileClose]. destruct n as [|n].
  - simpl. by rewrite app_nil_r.
  - destruct (Z.eqb_spec (Z.of_nat (S n)) 0) as [E|E]; [lia|].
    replace (Z.of_nat (S n) - 1)%Z with (Z.of_nat n) by lia.
    rewrite IH by lia. f_equal. f_equal. by rewrite <- app_assoc.
Qed.

Lemma whileClose_enough (fuel : nat) cc code :
  (0 <= cc)%Z -> Z.to_nat cc < fuel ->
  whileClose fuel cc code
  = Some ((-1)%Z, code ++ renderTokens (replicate (Z.to_nat cc) Close)).
Proof.
  intros Hcc Hf. rewrite <- (whileClose_nonneg (Z.to_nat cc) fuel code Hf).
  by rewrite Z2Nat.id.
Qed.

Lemma whileClose_short (n fuel : nat) code :
  fuel <= n -> whileClose fuel (Z.of_nat n) code = None.
Proof.
  revert n code. induction fuel as [|fuel IH]; intros n code Hn; [done|].
  cbn [whileClose]. destruct (Z.eqb_spec (Z.of_nat n) 0) as [E|E]; [lia|].
  replace (Z.of_nat n - 1)%Z with (Z.of_nat (n - 1)) by lia.
  apply IH. lia.
Qed.

(** The loop ends exactly when the count is not negative and the fuel
    exceeds it; it then leaves the count at [-1]. *)
Lemma whileClose_Some (fuel : nat) cc code (r : Z * JsString) :
  whileClose fuel cc code = Some r ->
  (0 <= cc)%Z /\ Z.to_nat cc < fuel
  /\ r = ((-1)%Z, code ++ renderTokens (replicate (Z.to_nat cc) Close)).
Proof.
  intros H. destruct (Z.lt_ge_cases cc 0) as [Hneg|Hpos].
  - by rewrite whileClose_negative in H.
  - split; [done|].
    destruct (Nat.lt_ge_cases (Z.to_nat cc) fuel) as [Hlt|Hge].
    + split; [done|]. rewrite whileClose_enough in H by done.
      by inversion H.
    + rewrite <- (Z2Nat.id cc), whileClose_short in H by done. done.
Qed.

Lemma gen_mono (f f' : nat) layer prev code cc (res : JsString * list Heading) :
  f <= f' ->
  recursiveListGenerator f layer prev code cc = Returns res ->
  recursiveListGenerator f' layer prev code cc = Returns res.
Proof.
  intros Hf. revert prev code cc.
  induction layer as [|h layer IH]; intros prev code cc; simpl; [done|].
  destruct (depthCount h =? prev)%Z; [apply IH|].
  destruct (depthCount h >? prev)%Z.
  - destruct (forOpen _ _ _) as [c t]. apply IH.
  - destruct (whileClose f cc code) as [[cc1 c1]|] eqn:Hw; [|done].
    apply whileClose_Some in Hw as (Hcc & Hlt & Hr). inversion Hr; subst.
    rewrite whileClose_enough by lia. apply IH.
Qed.

(** No clause of the generator raises an exception once the array is not
    empty. *)
Lemma gen_never_throws (f : nat) layer prev code cc (e : JsError) :
  recursiveListGenerator f layer prev code cc <> Throws e.
Proof.
  revert prev code cc.
  induction layer as [|h layer IH]; intros prev code cc; simpl; [done|].
  destruct (depthCount h =? prev)%Z; [apply IH|].
  destruct (depthCount h >? prev)%Z.
  - destruct (forOpen _ _ _) as [c t]. apply IH.
  - destruct (whileClose f cc code) as [[cc1 c1]|]; [apply IH|done].
Qed.

(** The count is negative exactly in the states the reading of the depths
    calls descended; from there the call returns, with enough fuel,
    exactly when no further descent comes before a deeper heading. *)
Lemma gen_returns_iff layer prev code cc (descended : bool) :
  (if descended then cc < 0 else 0 <= cc)%Z ->
  (exists fuel res, recursiveListGenerator fuel layer prev code cc = Returns res)
  <-> descendsTwice descended prev layer = false.
Proof.
  revert prev code cc descended.
  induction layer as [|h layer IH]; intros prev code cc descended Hcc; simpl.
  - split; [done|]. intros _. by exists 0, (code ++ js "</ul>", []).
  - destruct (depthCount h =? prev)%Z eqn:Heq; [by apply IH|].
    destruct (depthCount h >? prev)%Z eqn:Hgt.
    + rewrite forOpen_eq. apply (IH _ _ _ false). lia.
    + destruct descended; simpl.
      * split; [|done]. intros (fuel & res & H).
        by rewrite whileClose_negative in H.
      * rewrite <- (IH (depthCount h)
                      ((code ++ renderTokens (replicate (Z.to_nat cc) Close)) ++ li h)
                      (-1)%Z true) by done.
        split.
        -- intros (fuel & res & H).
           destruct (whileClose fuel cc code) as [[cc1 c1]|] eqn:Hw; [|done].
           apply whileClose_Some in Hw as (_ & _ & Hr). inversion Hr; subst.
           by exists fuel, res.
        -- intros (fuel & res & H).
           exists (Nat.max fuel (S (Z.to_nat cc))), res.
           rewrite whileClose_enough by lia.
           apply (gen_mono fuel); [lia|done].
Qed.

(** After a descent, a second one right behind it does not return. *)
Lemma gen_two_descents (fuel : nat) (b c : Heading) layer prev code cc :
  (depthCount b < prev)%Z -> (depthCount c < depthCount b)%Z ->
  recursiveListGenerator fuel (b :: c :: layer) prev code cc = OutOfFuel.
Proof.
  intros Hb Hc. cbn [recursiveListGenerator].
  destruct (depthCount b =? prev)%Z eqn:E1; [lia|].
  destruct (depthCount b >? prev)%Z eqn:E2; [lia|].
  destruct (whileClose fuel cc code) as [[cc1 c1]|] eqn:Hw; [|done].
  apply whileClose_Some in Hw as (_ & _ & Hr). inversion Hr; subst.
  destruct (depthCount c =? depthCount b)%Z eqn:E3; [lia|].
  destruct (depthCount c >? depthCount b)%Z eqn:E4; [lia|].
  by rewrite whileClose_negative.
Qed.

Lemma gen_hangs_behind (fuel : nat) (a : Heading) (rest pre : list Heading)
    prev code cc :
  (forall code' cc',
      recursiveListGenerator fuel rest (depthCount a) code' cc' = OutOfFuel) ->
  recursiveListGenerator fuel (pre ++ a :: rest) prev code cc = OutOfFuel.
Proof.
  intros Hrest. revert prev code cc.
  assert (forall prev code cc,
             recursiveListGenerator fuel (a :: rest) prev code cc = OutOfFuel) as Ha.
  { intros prev code cc. cbn [recursiveListGenerator].
    destruct (depthCount a =? prev)%Z; [apply Hrest|].
    destruct (depthCount a >? prev)%Z.
    - destruct (forOpen _ _ _) as [c t]. apply Hrest.
    - destruct (whileClose fuel cc code) as [[cc1 c1]|]; [apply Hrest|done]. }
  induction pre as [|x pre IH]; intros prev code cc; [apply Ha|].
  cbn [app recursiveListGenerator].
  destruct (depthCount x =? prev)%Z; [apply IH|].
  destruct (depthCount x >? prev)%Z.
  - destruct (forOpen _ _ _) as [c t]. apply IH.
  - destruct (whileClose fuel cc code) as [[cc1 c1]|]; [apply IH|done].
Qed.

Lemma items_app (ts1 ts2 : list Token) :
  items (ts1 ++ ts2) = items ts1 ++ items ts2.
Proof. apply omap_app. Qed.

Lemma items_replicate_Open (n : nat) : items (replicate n Open) = [].
Proof. induction n as [|n IH]; [done|]. exact IH. Qed.

Lemma items_replicate_Close (n : nat) : items (replicate n Close) = [].
Proof. induction n as [|n IH]; [done|]. exact IH. Qed.

Lemma renderTokens_app (ts1 ts2 : list Token) :
  renderTokens (ts1 ++ ts2) = renderTokens ts1 ++ renderTokens ts2.
Proof. unfold renderTokens. by rewrite map_app, concat_app. Qed.

Lemma li_Item (h : Heading) : li h = renderTokens [Item (content h)].
Proof. unfold renderTokens, li. simpl. by rewrite app_nil_r. Qed.

Lemma gen_tokens (fuel : nat) layer prev code cc (out : JsString)
    (left : list Heading) :
  recursiveListGenerator fuel layer prev code cc = Returns (out, left) ->
  exists ts,
    out = code ++ renderTokens ts ++ js "</ul>"
    /\ items ts = map content layer
    /\ left = [].
Proof.
  revert prev code cc.
  induction layer as [|h layer IH]; intros prev code cc; simpl.
  - intros H. inversion H; subst. by exists [].
  - destruct (depthCount h =? prev)%Z.
    + intros (ts & -> & Hi & ->)%IH. exists (Item (content h) :: ts).
      split; [|by rewrite <- Hi].
      rewrite li_Item, <- !app_assoc.
      by rewrite (app_assoc (renderTokens [_])), <- renderTokens_app.
    + destruct (depthCount h >? prev)%Z.
      * rewrite forOpen_eq.
        intros (ts & -> & Hi & ->)%IH.
        exists (replicate (Z.to_nat (depthCount h - prev)) Open
                  ++ Item (content h) :: ts).
        split.
        -- rewrite li_Item, <- !app_assoc. f_equal.
           rewrite !renderTokens_app, <- !app_assoc. f_equal.
           by rewrite (app_assoc (renderTokens [_])), <- renderTokens_app.
        -- split; [|done].
           rewrite items_app, items_replicate_Open. simpl. by rewrite <- Hi.
      * destruct (whileClose fuel cc code) as [[cc1 c1]|] eqn:Hw; [|done].
        apply whileClose_Some in Hw as (_ & _ & Hr). inversion Hr; subst.
        intros (ts & -> & Hi & ->)%IH.
        exists (replicate (Z.to_nat cc) Close ++ Item (content h) :: ts).
        split.
        -- rewrite li_Item, <- !app_assoc. f_equal.
           rewrite !renderTokens_app, <- !app_assoc. f_equal.
           by rewrite (app_assoc (renderTokens [_])), <- renderTokens_app.
        -- split; [|done].
           rewrite items_app, items_replicate_Close. simpl. by rewrite <- Hi.
Qed.

Lemma gen_flat (fuel : nat) layer (d : Z) code cc :
  Forall (fun x => depthCount x = d) layer ->
  recursiveListGenerator fuel layer d code cc
  = Returns (code ++ concat (map li layer) ++ js "</ul>", []).
Proof.
  intros Hall. revert code.
  induction Hall as [|h layer Hh _ IH]; intros code;
    cbn [recursiveListGenerator map concat]; [done|].
  rewrite Hh, Z.eqb_refl, IH. by rewrite <- !app_assoc.
Qed.

End Generator.

(** X7: the generator consumes the array it is given.  On the empty array
    it throws a [TypeError], with any fuel; when it returns, the array is
    left empty, so that a second call on the same array throws; and so
    does a call on the array that [mdRecursiveSubRoutine] has grouped. *)
Theorem generate_consumes (fuel fuel' : nat) (data : list Heading)
    (out : JsString) (left : list Heading) :
  generateNestedHtml fuel data = Returns (out, left) ->
  left = []
  /\ generateNestedHtml fuel' left = Throws TypeError
  /\ generateNestedHtml fuel' [] = Throws TypeError
  /\ generateNestedHtml fuel' (mdRecursiveSubRoutine data [] []).2 = Throws TypeError.
Proof.
  intros H. destruct (md_flatten_gen data [] []) as [_ ->].
  assert (left = []) as ->; [|done].
  destruct data as [|h t]; [done|]. unfold generateNestedHtml in H.
  destruct (recursiveListGenerator _ _ _ _ _) as [[c l]| |] eqn:Hg; try done.
  apply gen_tokens in Hg as (_ & _ & _ & ->). by inversion H.
Qed.

Lemma generate_consumes_witness :
  generateNestedHtml 0 (mdRecursiveSubRoutine depthData [] []).2 = Throws TypeError.
Proof.
  eapply (generate_consumes 2 0 depthData). reflexivity.
Defined.

(** X8: on a non-empty array the generator returns, with enough fuel,
    exactly when the depths never decrease twice without an increase in
    between. *)
Theorem generate_returns_iff (h : Heading) (t : list Heading) :
  (exists fuel res, generateNestedHtml fuel (h :: t) = Returns res)
  <-> descendsTwice false (depthCount h) (h :: t) = false.
Proof.
  rewrite <- (gen_returns_iff (h :: t) (depthCount h) [] 0 false) by done.
  unfold generateNestedHtml. split.
  - intros (fuel & res & H).
    destruct (recursiveListGenerator _ _ _ _ _) as [r| |] eqn:Hg; try done.
    by exists fuel, r.
  - intros (fuel & [c l] & H). exists fuel. rewrite H. by eexists.
Qed.

Lemma generate_returns_iff_witness :
  exists fuel res, generateNestedHtml fuel depthData = Returns res.
Proof.
  apply (generate_returns_iff (mkHeading 1 (js "#") (js "This is a heading"))
           (tail depthData)).
  reflexivity.
Defined.

(** X9: three headings in a row, each less deep than the one before,
    anywhere in the array: the generator does not return, whatever the
    fuel. *)
Theorem generate_hangs (fuel : nat) (pre post : list Heading) (a b c : Heading) :
  (depthCount b < depthCount a)%Z ->
  (depthCount c < depthCount b)%Z ->
  generateNestedHtml fuel (pre ++ a :: b :: c :: post) = OutOfFuel.
Proof.
  intros Hb Hc.
  assert (forall prev, recursiveListGenerator fuel (pre ++ a :: b :: c :: post)
                         prev [] 0 = OutOfFuel) as Hg.
  { intros prev. apply gen_hangs_behind. intros code' cc'.
    by apply gen_two_descents. }
  unfold generateNestedHtml.
  destruct (pre ++ a :: b :: c :: post) as [|x l] eqn:E.
  - by destruct pre.
  - by rewrite Hg.
Qed.

Lemma generate_hangs_witness :
  generateNestedHtml 1000
    [ mkHeading 3 (js "###") (js "c"); mkHeading 2 (js "##") (js "b");
      mkHeading 1 (js "#") (js "a") ]
  = OutOfFuel.
Proof.
  apply (generate_hangs 1000 [] []
           (mkHeading 3 (js "###") (js "c")) (mkHeading 2 (js "##") (js "b"))
           (mkHeading 1 (js "#") (js "a"))); reflexivity.
Defined.

(** X10: when the generator returns, the generated code is the opening
    tag and the line break of the driver, then list tags and list items,
    then the closing tag of the last call and that of the driver; the
    items are the texts of the headings, each once and in their order. *)
Theorem generate_items (fuel : nat) (data : list Heading) (out : JsString)
    (left : list Heading) :
  generateNestedHtml fuel data = Returns (out, left) ->
  exists ts,
    out = js "<ul>" ++ indent ++ renderTokens ts ++ js "</ul>" ++ indent ++ js "</ul>"
    /\ items ts = map content data.
Proof.
  intros H. destruct data as [|h t]; [done|]. unfold generateNestedHtml in H.
  destruct (recursiveListGenerator _ _ _ _ _) as [[c l]| |] eqn:Hg; try done.
  apply gen_tokens in Hg as (ts & -> & Hi & ->). inversion H; subst.
  exists ts. split; [|done]. simpl. by rewrite <- !app_assoc.
Qed.

Lemma generate_items_witness :
  exists ts,
    (js "<ul>" ++ indent
       ++ (js "<li>a</li>" ++ js "<ul>" ++ js "<li>b</li>" ++ js "</ul>")
       ++ indent ++ js "</ul>")
    = js "<ul>" ++ indent ++ renderTokens ts ++ js "</ul>" ++ indent ++ js "</ul>"
    /\ items ts = map content [mkHeading 1 (js "#") (js "a"); mkHeading 2 (js "##") (js "b")].
Proof.
  apply (generate_items 0 [mkHeading 1 (js "#") (js "a"); mkHeading 2 (js "##") (js "b")]
           _ []).
  reflexivity.
Defined.

(** X11: for headings of one and the same depth the generator returns with
    any fuel: the opening tag of the driver, one item per heading in
    order, and two closing tags for the one list opened. *)
Theorem generate_flat (fuel : nat) (h : Heading) (t : list Heading) :
  Forall (fun x => depthCount x = depthCount h) t ->
  generateNestedHtml fuel (h :: t)
  = Returns (js "<ul>" ++ indent ++ concat (map li (h :: t)) ++ js "</ul>"
               ++ indent ++ js "</ul>", []).
Proof.
  intros Hall. unfold generateNestedHtml.
  rewrite (gen_flat fuel (h :: t) (depthCount h)) by (by constructor).
  simpl. by rewrite <- !app_assoc.
Qed.

Lemma generate_flat_witness :
  generateNestedHtml 0
    [mkHeading 2 (js "##") (js "Background"); mkHeading 2 (js "##") (js "Usage")]
  = Returns (js "<ul>" ++ indent
               ++ concat (map li [mkHeading 2 (js "##") (js "Background");
                                  mkHeading 2 (js "##") (js "Usage")])
               ++ js "</ul>" ++ indent ++ js "</ul>", []).
Proof.
  apply (generate_flat 0 (mkHeading 2 (js "##") (js "Background"))
           [mkHeading 2 (js "##") (js "Usage")]).
  repeat constructor.
Defined.

Lemma lastDepth_cons (prev : Z) (h : Heading) (layer : list Heading) :
  lastDepth prev (h :: layer) = lastDepth (depthCount h) layer.
Proof.
  unfold lastDepth. destruct layer as [|y layer]; [reflexivity|].
  rewrite last_cons_cons. destruct (last (y :: layer)) eqn:E; [done|].
  by apply last_None in E.
Qed.

Lemma countOpen_replicate (n : nat) (ts : list Token) :
  countOpen (replicate n Open ++ ts) = n + countOpen ts.
Proof. induction n as [|n IH]; simpl; [done|]. by rewrite IH. Qed.

Lemma countClose_replicate_Open (n : nat) (ts : list Token) :
  countClose (replicate n Open ++ ts) = countClose ts.
Proof. induction n as [|n IH]; simpl; [done|]. exact IH. Qed.

Lemma gen_sorted (fuel : nat) (layer : list Heading) (prev : Z)
    (code : JsString) (cc : Z) :
  Sorted notDeeper layer ->
  (forall h, head layer = Some h -> (prev <= depthCount h)%Z) ->
  exists ts,
    recursiveListGenerator fuel layer prev code cc
    = Returns (code ++ renderTokens ts ++ js "</ul>", [])
    /\ items ts = map content layer
    /\ countClose ts = 0
    /\ Z.of_nat (countOpen ts) = (lastDepth prev layer - prev)%Z.
Proof.
  intros Hs. revert prev code cc.
  induction Hs as [|h layer Hs IH Hhd]; intros prev code cc Hprev.
  - exists []. repeat split. unfold lastDepth. simpl. lia.
  - specialize (Hprev h eq_refl).
    assert (forall x, head layer = Some x -> (depthCount h <= depthCount x)%Z) as Hnext.
    { intros x Hx. destruct layer as [|y layer]; [done|].
      inversion Hx; subst. by inversion Hhd. }
    cbn [recursiveListGenerator]. rewrite lastDepth_cons.
    destruct (Z.eqb_spec (depthCount h) prev) as [E|E].
    + destruct (IH (depthCount h) (code ++ li h) cc Hnext) as (ts & -> & Hi & Hc & Ho).
      exists (Item (content h) :: ts). split; [|split; [|split]].
      * rewrite li_Item, <- !app_assoc.
        by rewrite (app_assoc (renderTokens [_])), <- renderTokens_app.
      * simpl. by rewrite <- Hi.
      * done.
      * simpl. lia.
    + destruct (depthCount h >? prev)%Z eqn:Hgt; [|lia].
      rewrite forOpen_eq.
      destruct (IH (depthCount h)
                  ((code ++ renderTokens
                              (replicate (Z.to_nat (depthCount h - prev)) Open))
                     ++ li h)
                  (0 + Z.of_nat (Z.to_nat (depthCount h - prev)))%Z Hnext)
        as (ts & -> & Hi & Hc & Ho).
      exists (replicate (Z.to_nat (depthCount h - prev)) Open
                ++ Item (content h) :: ts).
      split; [|split; [|split]].
      * rewrite li_Item, <- !app_assoc. f_equal.
        rewrite !renderTokens_app, <- !app_assoc. f_equal.
        by rewrite (app_assoc (renderTokens [_])), <- renderTokens_app.
      * rewrite items_app, items_replicate_Open. simpl. by rewrite <- Hi.
      * by rewrite countClose_replicate_Open.
      * rewrite countOpen_replicate. simpl. lia.
Qed.

(** X12: when the depth never decreases from a heading to the next, the
    generator returns with any fuel.  Between the opening tag and the two
    closing tags that every result has, it opens one list for each level
    of depth gained from the first heading to the last and closes none;
    the items are the texts of the headings in order. *)
Theorem generate_sorted (fuel : nat) (h : Heading) (t : list Heading) :
  Sorted notDeeper (h :: t) ->
  exists ts,
    generateNestedHtml fuel (h :: t)
    = Returns (js "<ul>" ++ indent ++ renderTokens ts ++ js "</ul>"
                 ++ indent ++ js "</ul>", [])
    /\ items ts = map content (h :: t)
    /\ countClose ts = 0
    /\ Z.of_nat (countOpen ts) = (lastDepth (depthCount h) t - depthCount h)%Z.
Proof.
  intros Hs.
  destruct (gen_sorted fuel (h :: t) (depthCount h) [] 0 Hs) as (ts & Hg & Hi & Hc & Ho).
  { intros x [= <-]. lia. }
  exists ts. unfold generateNestedHtml. rewrite Hg.
  split; [|split; [done|split; [done|]]].
  - simpl. by rewrite <- !app_assoc.
  - by rewrite lastDepth_cons in Ho.
Qed.

Lemma generate_sorted_witness :
  exists ts,
    generateNestedHtml 0
      [ mkHeading 1 (js "#") (js "a"); mkHeading 2 (js "##") (js "b");
        mkHeading 4 (js "####") (js "c") ]
    = Returns (js "<ul>" ++ indent ++ renderTokens ts ++ js "</ul>"
                 ++ indent ++ js "</ul>", [])
    /\ items ts = [js "a"; js "b"; js "c"]
    /\ countClose ts = 0
    /\ Z.of_nat (countOpen ts) = 3%Z.
Proof.
  apply (generate_sorted 0 (mkHeading 1 (js "#") (js "a"))
           [mkHeading 2 (js "##") (js "b"); mkHeading 4 (js "####") (js "c")]).
  repeat constructor; unfold notDeeper; simpl; lia.
Defined.

(** * Reading the headings *)

Section Matcher.

Implicit Types (s line : JsString) (p : N -> bool).

Lemma prefixLen_le p s : prefixLen p s <= length s.
Proof.
  induction s as [|c s IH]; simpl; [done|]. destruct (p c); lia.
Qed.

Lemma prefixLen_all p s : forallb p s = true <-> prefixLen p s = length s.
Proof.
  induction s as [|c s IH]; simpl; [done|].
  destruct (p c); simpl; [|split; [done|lia]].
  rewrite IH. lia.
Qed.

Lemma forallb_drop p s (k : nat) :
  forallb p s = true -> forallb p (drop k s) = true.
Proof.
  revert k. induction s as [|c s IH]; intros k H; [by destruct k|].
  destruct k as [|k]; [done|]. simpl in *.
  apply andb_prop in H as [_ H]. by apply IH.
Qed.

Lemma prefixLen_drop p s (j : nat) :
  j <= prefixLen p s -> prefixLen p (drop j s) = prefixLen p s - j.
Proof.
  revert j. induction s as [|c s IH]; intros j Hj; [by destruct j|].
  destruct j as [|j]; [simpl; lia|]. simpl in *.
  destruct (p c); [|lia]. simpl. apply IH. lia.
Qed.

Lemma prefixLen_take p s : forallb p (take (prefixLen p s) s) = true.
Proof.
  induction s as [|c s IH]; simpl; [done|].
  destruct (p c) eqn:E; simpl; [|done]. by rewrite E, IH.
Qed.

(** After the longest prefix in the class comes a character outside it,
    or nothing. *)
Lemma prefixLen_stop p s :
  match drop (prefixLen p s) s with
  | c :: _ => p c = false
  | [] => True
  end.
Proof.
  induction s as [|c s IH]; simpl; [done|].
  destruct (p c) eqn:E; simpl; done.
Qed.

Lemma prefixLen_app p (l rest : JsString) :
  forallb p l = true ->
  match rest with c :: _ => p c = false | [] => True end ->
  prefixLen p (l ++ rest) = length l.
Proof.
  intros Hl Hrest. induction l as [|c l IH]; simpl in *.
  - destruct rest as [|c rest]; [done|]. simpl. by rewrite Hrest.
  - apply andb_prop in Hl as [-> Hl]. by rewrite IH.
Qed.

Lemma hash_not_space (c : N) : isHash c = true -> isWhiteSpace c = false.
Proof. unfold isHash. intros ->%N.eqb_eq. reflexivity. Qed.

Lemma hash_prefix_no_space s :
  0 < prefixLen isHash s -> prefixLen isWhiteSpace s = 0.
Proof.
  destruct s as [|c s]; simpl; [done|].
  destruct (isHash c) eqn:E; [|lia]. intros _.
  by rewrite (hash_not_space c E).
Qed.

Lemma forallb_isHash s :
  forallb isHash s = true -> s = replicate (length s) 35%N.
Proof.
  induction s as [|c s IH]; simpl; [done|].
  intros [Hc Hs]%andb_prop. unfold isHash in Hc. apply N.eqb_eq in Hc as ->.
  by rewrite <- IH.
Qed.

Lemma matchAtoms_cons (a : Atom) (atoms : list Atom) s :
  matchAtoms (a :: atoms) s = backtrack a (matchAtoms atoms) s (greedy a s).
Proof. reflexivity. Qed.

Lemma backtrack_first (a : Atom) next s (k : nat) (caps : list JsString) :
  atLeast a <= k -> next (drop k s) = Some caps ->
  backtrack a next s k = Some (if capture a then take k s :: caps else caps).
Proof.
  intros Hk Hn. destruct k; simpl.
  - destruct (Nat.leb_spec (atLeast a) 0); [|lia]. by rewrite Hn.
  - destruct (Nat.leb_spec (atLeast a) (S k)); [|lia]. by rewrite Hn.
Qed.

Lemma backtrack_None (a : Atom) next s (k : nat) :
  (forall j, j <= k -> atLeast a <= j -> next (drop j s) = None) ->
  backtrack a next s k = None.
Proof.
  induction k as [|k IH]; intros H; simpl.
  - destruct (Nat.leb_spec (atLeast a) 0); [|done]. by rewrite H.
  - destruct (Nat.leb_spec (atLeast a) (S k)).
    + rewrite H by lia. apply IH. intros j Hj. apply H. lia.
    + apply IH. intros j Hj. apply H. lia.
Qed.

(** The last atom and the end of the input: the rest of the line, when it
    holds no line terminator. *)
Lemma match_dot s :
  matchAtoms [mkAtom isDot 0 None true] s
  = if forallb isDot s then Some [s] else None.
Proof.
  cbn [matchAtoms]. unfold greedy; cbn [atMost cls].
  destruct (forallb isDot s) eqn:E.
  - apply prefixLen_all in E as ->.
    rewrite (backtrack_first _ _ _ _ []); cbn [atLeast capture]; [|lia|].
    + by rewrite firstn_all.
    + by rewrite drop_all.
  - apply backtrack_None. intros j Hj _.
    assert (prefixLen isDot s < length s) as Hlt.
    { pose proof (prefixLen_le isDot s).
      destruct (decide (prefixLen isDot s = length s)) as [Heq|]; [|lia].
      apply prefixLen_all in Heq. congruence. }
    destruct (drop j s) as [|c r] eqn:Hd; [|done].
    apply (f_equal length) in Hd. rewrite length_drop in Hd. simpl in Hd. lia.
Qed.

(** White space, then the last atom: all the white space there is goes,
    and what follows is the text. *)
Lemma match_space_dot s :
  matchAtoms [mkAtom isWhiteSpace 1 None false; mkAtom isDot 0 None true] s
  = if (1 <=? prefixLen isWhiteSpace s)
       && forallb isDot (drop (prefixLen isWhiteSpace s) s)
    then Some [drop (prefixLen isWhiteSpace s) s] else None.
Proof.
  change (backtrack (mkAtom isWhiteSpace 1 None false)
            (matchAtoms [mkAtom isDot 0 None true]) s (prefixLen isWhiteSpace s)
          = if (1 <=? prefixLen isWhiteSpace s)
               && forallb isDot (drop (prefixLen isWhiteSpace s) s)
            then Some [drop (prefixLen isWhiteSpace s) s] else None).
  set (m := prefixLen isWhiteSpace s).
  destruct (Nat.leb_spec 1 m) as [Hm|Hm]; cbn [andb].
  - destruct (forallb isDot (drop m s)) eqn:E.
    + rewrite (backtrack_first _ _ _ _ [drop m s]); [done|simpl; lia|].
      by rewrite match_dot, E.
    + apply backtrack_None. intros j Hj _. rewrite match_dot.
      destruct (forallb isDot (drop j s)) eqn:Ej; [|done].
      apply (forallb_drop _ _ (m - j)) in Ej.
      rewrite drop_drop in Ej. replace (j + (m - j)) with m in Ej by lia.
      congruence.
  - apply backtrack_None. intros j Hj Hj'. simpl in Hj'. lia.
Qed.

(** The whole pattern: all the [#] at the start of the line, which must be
    one to four, then white space and text. *)
Lemma match_heading line :
  matchAtoms dynamicMdMatcher line
  = if (1 <=? prefixLen isHash line) && (prefixLen isHash line <=? 4)
    then
      match matchAtoms [mkAtom isWhiteSpace 1 None false; mkAtom isDot 0 None true]
                       (drop (prefixLen isHash line) line) with
      | Some caps => Some (take (prefixLen isHash line) line :: caps)
      | None => None
      end
    else None.
Proof.
  unfold dynamicMdMatcher. rewrite matchAtoms_cons.
  unfold greedy. cbn [atMost cls].
  set (n := prefixLen isHash line).
  set (rest := [mkAtom isWhiteSpace 1 None false; mkAtom isDot 0 None true]).
  assert (forall j, j < n -> matchAtoms rest (drop j line) = None) as Hshort.
  { intros j Hj. unfold rest. rewrite match_space_dot.
    rewrite hash_prefix_no_space; [done|].
    rewrite prefixLen_drop by (fold n; lia). fold n. lia. }
  destruct (Nat.leb_spec 1 n) as [H1|H1]; cbn [andb].
  - destruct (Nat.leb_spec n 4) as [H4|H4].
    + replace (Nat.min 4 n) with n by lia.
      destruct (matchAtoms rest (drop n line)) as [caps|] eqn:E.
      * by rewrite (backtrack_first _ _ _ _ caps).
      * apply backtrack_None. intros j Hj _.
        destruct (decide (j = n)) as [->|]; [done|]. apply Hshort. lia.
    + apply backtrack_None. intros j Hj _. apply Hshort. lia.
  - apply backtrack_None. intros j Hj Hj'. simpl in Hj'. lia.
Qed.

End Matcher.

(** X13: what the regular expression makes of a line.  Let [n] be the
    number of [#] the line starts with, [m] the number of white space
    characters that follow them, and [c] the rest.  The line matches
    exactly when [n] is between 1 and 4, [m] is at least 1 and [c] holds no
    line terminator; the groups are then the [n] characters [#] and [c].
    Backtracking never finds another match. *)
Theorem exec_eq (line : JsString) :
  exec line
  = (let n := prefixLen isHash line in
     let m := prefixLen isWhiteSpace (drop n line) in
     let c := drop m (drop n line) in
     if (1 <=? n) && (n <=? 4) && (1 <=? m) && forallb isDot c
     then Some (replicate n 35%N, c) else None).
Proof.
  unfold exec. rewrite match_heading, match_space_dot. cbv zeta.
  set (n := prefixLen isHash line).
  set (m := prefixLen isWhiteSpace (drop n line)).
  destruct (1 <=? n), (n <=? 4), (1 <=? m), (forallb isDot (drop m (drop n line)));
    cbn [andb]; try done.
  f_equal. f_equal.
  pose proof (prefixLen_take isHash line) as Ht. fold n in Ht.
  apply forallb_isHash in Ht. rewrite Ht at 1. f_equal.
  rewrite length_take. pose proof (prefixLen_le isHash line). lia.
Qed.

Section Parsing.

Implicit Types (s line cur rest : JsString) (h : Heading).

Lemma parseLine_wellFormed line h :
  parseLine line = Some h -> wellFormed h.
Proof.
  unfold parseLine. rewrite exec_eq. cbv zeta.
  set (n := prefixLen isHash line).
  set (m := prefixLen isWhiteSpace (drop n line)).
  destruct (Nat.leb_spec 1 n) as [H1|]; [|done].
  destruct (Nat.leb_spec n 4) as [H4|]; [|done].
  destruct (1 <=? m); [|done].
  destruct (forallb isDot (drop m (drop n line))) eqn:Hdot; [|done].
  cbn [andb]. intros [= <-]. unfold wellFormed; cbn [type content depthCount].
  split; [|split; [done|]].
  - exists n. by rewrite length_replicate.
  - apply (prefixLen_stop isWhiteSpace (drop n line)).
Qed.

Lemma wellFormed_dot_space h :
  wellFormed h -> prefixLen isWhiteSpace (content h) = 0.
Proof.
  intros (_ & _ & Hc). destruct (content h) as [|c l]; [done|].
  simpl. by rewrite Hc.
Qed.

Lemma prefixLen_hashes (n : nat) : forallb isHash (replicate n 35%N) = true.
Proof. induction n as [|n IH]; [done|]. exact IH. Qed.

Lemma parseLine_headingLine h :
  wellFormed h -> parseLine (headingLine h) = Some h.
Proof.
  intros Hw. pose proof (wellFormed_dot_space h Hw) as Hsp.
  destruct Hw as ((n & Hn & Ht & Hd) & Hdot & _).
  unfold parseLine, headingLine. rewrite exec_eq. cbv zeta.
  assert (prefixLen isHash (type h ++ [32%N] ++ content h) = n) as ->.
  { rewrite prefixLen_app; [by rewrite Ht, length_replicate| |done].
    rewrite Ht. apply prefixLen_hashes. }
  assert (drop n (type h ++ [32%N] ++ content h) = 32%N :: content h) as ->.
  { rewrite <- (length_replicate n 35%N), <- Ht. by rewrite drop_app_length. }
  assert (prefixLen isWhiteSpace (32%N :: content h) = 1) as ->.
  { cbn [prefixLen]. change (isWhiteSpace 32) with true. cbn iota. by rewrite Hsp. }
  destruct (Nat.leb_spec 1 n); [|lia]. destruct (Nat.leb_spec n 4); [|lia].
  change (drop 1 (32%N :: content h)) with (content h).
  rewrite Hdot. cbn [andb Nat.leb]. f_equal.
  destruct h as [d t c]. cbn [type content depthCount] in *. subst.
  by rewrite length_replicate.
Qed.

Lemma list_match_same {A B : Type} (l : list A) (x : B) :
  match l with _ :: _ => x | [] => x end = x.
Proof. by destruct l. Qed.

Lemma splitFrom_line cur line rest :
  noBreak line ->
  splitFrom cur (line ++ 10%N :: rest) = (cur ++ line) :: splitFrom [] rest.
Proof.
  unfold noBreak. revert cur.
  induction line as [|c line IH]; intros cur Hl.
  - simpl. by rewrite app_nil_r.
  - cbn [forallb] in Hl. apply andb_prop in Hl as [Hc Hl].
    apply negb_true_iff, orb_false_iff in Hc as [Hc10 Hc13].
    cbn [app splitFrom]. rewrite Hc10, Hc13. cbn [andb].
    rewrite list_match_same, IH by done. by rewrite <- app_assoc.
Qed.

Lemma splitFrom_line_crlf cur line rest :
  noBreak line ->
  splitFrom cur (line ++ 13%N :: 10%N :: rest) = (cur ++ line) :: splitFrom [] rest.
Proof.
  unfold noBreak. revert cur.
  induction line as [|c line IH]; intros cur Hl.
  - simpl. by rewrite app_nil_r.
  - cbn [forallb] in Hl. apply andb_prop in Hl as [Hc Hl].
    apply negb_true_iff, orb_false_iff in Hc as [Hc10 Hc13].
    cbn [app splitFrom]. rewrite Hc10, Hc13. cbn [andb].
    rewrite list_match_same, IH by done. by rewrite <- app_assoc.
Qed.

Lemma splitFrom_last cur line :
  noBreak line -> splitFrom cur line = [cur ++ line].
Proof.
  unfold noBreak. revert cur.
  induction line as [|c line IH]; intros cur Hl.
  - simpl. by rewrite app_nil_r.
  - cbn [forallb] in Hl. apply andb_prop in Hl as [Hc Hl].
    apply negb_true_iff, orb_false_iff in Hc as [Hc10 Hc13].
    cbn [splitFrom]. rewrite Hc10, Hc13. cbn [andb].
    rewrite list_match_same, IH by done. by rewrite <- app_assoc.
Qed.

Lemma split_joinLines (l : JsString) (ls : list JsString) :
  Forall noBreak (l :: ls) -> split (joinLines (l :: ls)) = l :: ls.
Proof.
  unfold split. revert l. induction ls as [|l' ls IH]; intros l Hall.
  - apply Forall_inv in Hall. cbn [joinLines]. by rewrite splitFrom_last.
  - pose proof (Forall_inv Hall) as Hl. apply Forall_inv_tail in Hall.
    change (joinLines (l :: l' :: ls)) with (l ++ 10%N :: joinLines (l' :: ls)).
    rewrite splitFrom_line by done. by rewrite IH.
Qed.

Lemma split_joinCrLf (l : JsString) (ls : list JsString) :
  Forall noBreak (l :: ls) -> split (joinCrLf (l :: ls)) = l :: ls.
Proof.
  unfold split. revert l. induction ls as [|l' ls IH]; intros l Hall.
  - apply Forall_inv in Hall. cbn [joinCrLf]. by rewrite splitFrom_last.
  - pose proof (Forall_inv Hall) as Hl. apply Forall_inv_tail in Hall.
    change (joinCrLf (l :: l' :: ls))
      with (l ++ 13%N :: 10%N :: joinCrLf (l' :: ls)).
    rewrite splitFrom_line_crlf by done. by rewrite IH.
Qed.

Lemma dot_noBreak (c : JsString) : forallb isDot c = true -> noBreak c.
Proof.
  unfold noBreak. induction c as [|x c IH]; [done|]. cbn [forallb].
  intros [Hx Hc]%andb_prop. rewrite IH by done. rewrite andb_true_r.
  unfold isDot, isLineTerminator in Hx.
  apply negb_true_iff in Hx. apply negb_true_iff.
  destruct (x =? 10)%N, (x =? 13)%N; done.
Qed.

Lemma hashes_noBreak (n : nat) : noBreak (replicate n 35%N).
Proof. unfold noBreak. induction n as [|n IH]; [done|]. exact IH. Qed.

Lemma headingLine_noBreak h : wellFormed h -> noBreak (headingLine h).
Proof.
  intros ((n & _ & Ht & _) & Hdot & _). unfold headingLine.
  apply dot_noBreak in Hdot. pose proof (hashes_noBreak n) as Hn.
  unfold noBreak in *. rewrite !forallb_app, Ht, Hn, Hdot. done.
Qed.

Lemma headingLine_nonempty h : 0 < length (headingLine h).
Proof. unfold headingLine. rewrite !length_app. simpl. lia. Qed.

End Parsing.

Lemma retrieved_bounds (postContent : JsString) :
  Forall (fun h => (1 <= depthCount h <= 4)%Z) (retrieveParsedData postContent)
  /\ Forall wellFormed (retrieveParsedData postContent).
Proof.
  assert (Forall wellFormed (retrieveParsedData postContent)) as Hw.
  { unfold retrieveParsedData. apply Forall_forall. intros h Hin.
    apply list_elem_of_omap in Hin as (line & _ & Hp).
    by apply parseLine_wellFormed in Hp. }
  split; [|done].
  eapply Forall_impl; [exact Hw|].
  intros h ((n & Hn & _ & ->) & _). lia.
Qed.

(** X14: every heading that [retrieveParsedData] yields has the shape of
    a heading: its type is one to four [#], its depth is their number, so
    between 1 and 4, and its text holds no line terminator and does not
    start with white space. *)
Theorem retrieved_wellFormed (postContent : JsString) :
  Forall wellFormed (retrieveParsedData postContent)
  /\ Forall (fun h => (1 <= depthCount h <= 4)%Z) (retrieveParsedData postContent).
Proof.
  destruct (retrieved_bounds postContent) as [Hb Hw]. by split.
Qed.

(** X15: writing headings down and reading them back.  For headings of
    that shape, the text made of one line per heading, the [#]s, a space
    and the text, joined by line feeds, is read back as the same headings
    in the same order. *)
Theorem retrieve_round_trip (hs : list Heading) :
  Forall wellFormed hs ->
  retrieveParsedData (joinLines (map headingLine hs)) = hs.
Proof.
  intros Hw. unfold retrieveParsedData. rewrite map_id.
  destruct hs as [|h hs]; [done|].
  change (map headingLine (h :: hs)) with (headingLine h :: map headingLine hs).
  rewrite split_joinLines.
  - change (headingLine h :: map headingLine hs) with (map headingLine (h :: hs)).
    induction Hw as [|x l Hx Hl IH]; [done|].
    cbn [map]. rewrite filter_cons_True by apply headingLine_nonempty.
    cbn [omap list_omap]. rewrite parseLine_headingLine by done.
    by rewrite IH.
  - change (headingLine h :: map headingLine hs) with (map headingLine (h :: hs)).
    apply Forall_map. eapply Forall_impl; [exact Hw|].
    intros x Hx. by apply headingLine_noBreak.
Qed.

Lemma retrieve_round_trip_witness :
  retrieveParsedData
    (joinLines (map headingLine
                    [ mkHeading 1 (js "#") (js "Background");
                      mkHeading 3 (js "###") (js "Driver Function") ]))
  = [ mkHeading 1 (js "#") (js "Background");
      mkHeading 3 (js "###") (js "Driver Function") ].
Proof.
  apply (retrieve_round_trip
           [ mkHeading 1 (js "#") (js "Background");
             mkHeading 3 (js "###") (js "Driver Function") ]).
  repeat constructor.
  - exists 1. repeat split; lia.
  - exists 3. repeat split; lia.
Defined.

(** X16: the line break does not matter, and only heading lines count.
    For lines without line feed and carriage return, joined by line feeds
    or by carriage return and line feed alike, the headings read are those
    of the lines that are not empty and match, in order. *)
Theorem retrieve_lines (ls : list JsString) :
  Forall noBreak ls ->
  retrieveParsedData (joinLines ls)
  = omap parseLine (filter (fun l => 0 < length l) ls)
  /\ retrieveParsedData (joinCrLf ls) = retrieveParsedData (joinLines ls).
Proof.
  intros Hall. unfold retrieveParsedData. rewrite !map_id.
  destruct ls as [|l ls]; [done|].
  by rewrite split_joinLines, split_joinCrLf.
Qed.

Lemma retrieve_lines_witness :
  retrieveParsedData (joinCrLf [js "# Usage"; js ""; js "some text"; js "## Output"])
  = retrieveParsedData (joinLines [js "# Usage"; js ""; js "some text"; js "## Output"]).
Proof.
  apply (retrieve_lines [js "# Usage"; js ""; js "some text"; js "## Output"]).
  repeat constructor.
Defined.

Lemma gen_bounded (layer : list Heading) (prev : Z) (code : JsString) (cc : Z)
    (descended : bool) :
  Forall (fun h => (1 <= depthCount h <= 4)%Z) layer ->
  (1 <= prev <= 4)%Z ->
  (if descended then cc < 0 else 0 <= cc <= 3)%Z ->
  descendsTwice descended prev layer = false ->
  exists res, recursiveListGenerator 4 layer prev code cc = Returns res.
Proof.
  intros Hall. revert prev code cc descended.
  induction Hall as [|h layer Hh _ IH]; intros prev code cc descended Hp Hcc;
    cbn [recursiveListGenerator descendsTwice]; [by eexists|].
  destruct (Z.eqb_spec (depthCount h) prev) as [E|E]; [by apply IH|].
  destruct (depthCount h >? prev)%Z eqn:Hgt.
  - rewrite forOpen_eq. apply (IH _ _ _ false); [done|]. lia.
  - destruct descended; [done|]. cbn [orb]. intros Hd.
    rewrite whileClose_enough by lia. by apply (IH _ _ _ true).
Qed.

(** X17: for the headings read from a text, fuel 4 decides.  Whatever the
    text, the generator run on its headings with more fuel ends as it does
    with fuel 4: it throws when there is no heading, or it returns the
    same code, or it does not return whatever the fuel. *)
Theorem parsed_fuel (postContent : JsString) (fuel : nat) :
  4 <= fuel ->
  generateNestedHtml fuel (retrieveParsedData postContent)
  = generateNestedHtml 4 (retrieveParsedData postContent).
Proof.
  intros Hf. destruct (retrieved_bounds postContent) as [Hb _].
  destruct (retrieveParsedData postContent) as [|h t]; [done|].
  unfold generateNestedHtml.
  destruct (descendsTwice false (depthCount h) (h :: t)) eqn:Hd.
  - assert (forall f, recursiveListGenerator f (h :: t) (depthCount h) [] 0
                      = OutOfFuel) as Hout.
    { intros f.
      destruct (recursiveListGenerator f (h :: t) (depthCount h) [] 0)
        as [res|e|] eqn:Hg; [|by apply gen_never_throws in Hg|done].
      assert (descendsTwice false (depthCount h) (h :: t) = false); [|congruence].
      apply (gen_returns_iff (h :: t) (depthCount h) [] 0 false); [done|].
      by exists f, res. }
    by rewrite !Hout.
  - destruct (gen_bounded (h :: t) (depthCount h) [] 0 false) as [res Hres];
      [done|by inversion Hb|lia|done|].
    by rewrite Hres, (gen_mono 4 fuel _ _ _ _ res Hf Hres).
Qed.

Lemma parsed_fuel_witness :
  generateNestedHtml 9 (retrieveParsedData (js "### c" ++ 10%N :: js "## b" ++ 10%N :: js "# a"))
  = generateNestedHtml 4 (retrieveParsedData (js "### c" ++ 10%N :: js "## b" ++ 10%N :: js "# a")).
Proof.
  apply (parsed_fuel (js "### c" ++ 10%N :: js "## b" ++ 10%N :: js "# a") 9). lia.
Defined.
